(** * The CSS selector builder of [src/05-objects-tasks.js]

    A shallow embedding of [class CssSelectorClass] and of the facade object
    [cssSelectorBuilder], followed by the properties of the builder.

    - The property bag [this.main] is a finite map from property names to
      arrays of fragments.
    - A method body is a function from the receiver's fields to a completion
      and the receiver's new fields: every method assigns to [this.main]
      before it may throw, so the new fields are produced on both paths.
    - Instances have identity.  The facade allocates them in a store, methods
      update the store at the receiver, and [combine] stringifies (and thereby
      clears) the instances it is given. *)

From stdpp Require Import gmap strings list fin_maps.

(** ** JavaScript values that reach the builder *)

(** The constructor arguments [selector1], [combinator] and [selector2] are
    either omitted ([undefined]) or strings. *)
Inductive jsval :=
  | Undefined
  | Str (s : string).

(** [ToBoolean]: [undefined] and the empty string are falsy. *)
Definition ToBoolean (v : jsval) : bool :=
  match v with
  | Undefined => false
  | Str s => negb (String.eqb s "")
  end.

(** [ToString], as applied by a template literal. *)
Definition ToString (v : jsval) : string :=
  match v with
  | Undefined => "undefined"
  | Str s => s
  end.

(** A property of [this.main] used as a condition: an array is truthy
    whatever its length, a missing property is [undefined]. *)
Definition truthy (p : option (list string)) : bool :=
  match p with
  | Some _ => true
  | None => false
  end.

(** [Array.prototype.join] on an array of strings. *)
Definition join (sep : string) (xs : list string) : string :=
  String.concat sep xs.

(** The double quote character, for fragments such as [href$=".png"]. *)
Definition dquote : string := String (Ascii.ascii_of_nat 34) EmptyString.

(** ** Completions: a method returns or throws [new Error(msg)] *)
Inductive completion (A : Type) :=
  | Return (a : A)
  | Throw (msg : string).
Arguments Return {A} a.
Arguments Throw {A} msg.

(** ** [class CssSelectorClass] *)

Record CssSelectorClass := mkCssSelectorClass {
  main : gmap string (list string);
  selector1 : jsval;
  combinator : jsval;
  selector2 : jsval;
  errorMsgUnique : string;
  errorMsgOrder : string
}.

(** The assignment [this.main = m]. *)
Definition set_main (this : CssSelectorClass) (m : gmap string (list string))
  : CssSelectorClass :=
  {| main := m;
     selector1 := selector1 this;
     combinator := combinator this;
     selector2 := selector2 this;
     errorMsgUnique := errorMsgUnique this;
     errorMsgOrder := errorMsgOrder this |}.

(** The two messages the constructor stores; the specification calls the
    errors carrying them [UniquenessError] and [OrderError]. *)
Definition UniquenessError : string :=
  "Element, id and pseudo-element should not occur more then one time inside the selector".
Definition OrderError : string :=
  "Selector parts should be arranged in the following order: element, id, class, attribute, pseudo-class, pseudo-element".

Module CssSelectorClass.

Definition constructor (selectorName value : string)
    (selector1 combinator selector2 : jsval) : CssSelectorClass :=
  {| main := <[selectorName := [value]]> ∅;
     selector1 := selector1;
     combinator := combinator;
     selector2 := selector2;
     errorMsgUnique := UniquenessError;
     errorMsgOrder := OrderError |}.

Definition element (value : string) (this : CssSelectorClass)
  : completion unit * CssSelectorClass :=
  let this :=
    set_main this
      (<["element" := match main this !! "element" with
                      | Some xs => xs ++ [value]
                      | None => [value]
                      end]> (main this)) in
  if 2 <=? length (default [] (main this !! "element")) then
    (Throw (errorMsgUnique this), this)
  else if truthy (main this !! "id")
          || truthy (main this !! "className")
          || truthy (main this !! "attr")
          || truthy (main this !! "pseudoClass")
          || truthy (main this !! "pseudoElement") then
    (Throw (errorMsgOrder this), this)
  else (Return (), this).

Definition id (value : string) (this : CssSelectorClass)
  : completion unit * CssSelectorClass :=
  let this :=
    set_main this
      (<["id" := match main this !! "id" with
                 | Some xs => xs ++ [value]
                 | None => [value]
                 end]> (main this)) in
  if 2 <=? length (default [] (main this !! "id")) then
    (Throw (errorMsgUnique this), this)
  else if truthy (main this !! "className")
          || truthy (main this !! "attr")
          || truthy (main this !! "pseudoClass")
          || truthy (main this !! "pseudoElement") then
    (Throw (errorMsgOrder this), this)
  else (Return (), this).

Definition class (value : string) (this : CssSelectorClass)
  : completion unit * CssSelectorClass :=
  let this :=
    set_main this
      (<["className" := match main this !! "className" with
                        | Some xs => xs ++ [value]
                        | None => [value]
                        end]> (main this)) in
  if truthy (main this !! "attr")
     || truthy (main this !! "pseudoClass")
     || truthy (main this !! "pseudoElement") then
    (Throw (errorMsgOrder this), this)
  else (Return (), this).

Definition attr (value : string) (this : CssSelectorClass)
  : completion unit * CssSelectorClass :=
  let this :=
    set_main this
      (<["attr" := match main this !! "attr" with
                   | Some xs => xs ++ [value]
                   | None => [value]
                   end]> (main this)) in
  if truthy (main this !! "pseudoClass")
     || truthy (main this !! "pseudoElement") then
    (Throw (errorMsgOrder this), this)
  else (Return (), this).

Definition pseudoClass (value : string) (this : CssSelectorClass)
  : completion unit * CssSelectorClass :=
  let this :=
    set_main this
      (<["pseudoClass" := match main this !! "pseudoClass" with
                          | Some xs => xs ++ [value]
                          | None => [value]
                          end]> (main this)) in
  if truthy (main this !! "pseudoElement") then
    (Throw (errorMsgOrder this), this)
  else (Return (), this).

Definition pseudoElement (value : string) (this : CssSelectorClass)
  : completion unit * CssSelectorClass :=
  let this :=
    set_main this
      (<["pseudoElement" := match main this !! "pseudoElement" with
                            | Some xs => xs ++ [value]
                            | None => [value]
                            end]> (main this)) in
  if 2 <=? length (default [] (main this !! "pseudoElement")) then
    (Throw (errorMsgUnique this), this)
  else (Return (), this).

(** [stringify] never throws; it returns the string and leaves the
    receiver with [this.main = {}]. *)
Definition stringify (this : CssSelectorClass) : string * CssSelectorClass :=
  let cssSelector := "" in
  if ToBoolean (combinator this) then
    let cssSelector :=
      ToString (selector1 this) +:+ " " +:+ ToString (combinator this)
        +:+ " " +:+ ToString (selector2 this) in
    (cssSelector, set_main this ∅)
  else
    let cssSelector :=
      match main this !! "element" with
      | Some xs => cssSelector +:+ join "" xs
      | None => cssSelector
      end in
    let cssSelector :=
      match main this !! "id" with
      | Some xs => cssSelector +:+ ("#" +:+ join "" xs)
      | None => cssSelector
      end in
    let cssSelector :=
      match main this !! "className" with
      | Some xs => cssSelector +:+ ("." +:+ join "." xs)
      | None => cssSelector
      end in
    let cssSelector :=
      match main this !! "attr" with
      | Some xs => cssSelector +:+ ("[" +:+ join "" xs +:+ "]")
      | None => cssSelector
      end in
    let cssSelector :=
      match main this !! "pseudoClass" with
      | Some xs => cssSelector +:+ (":" +:+ join ":" xs)
      | None => cssSelector
      end in
    let cssSelector :=
      match main this !! "pseudoElement" with
      | Some xs => cssSelector +:+ ("::" +:+ join "" xs)
      | None => cssSelector
      end in
    (cssSelector, set_main this ∅).

End CssSelectorClass.

(** ** The store of instances *)

(** A reference to an instance is its index in the store; [new] appends. *)
Abbreviation loc := nat (only parsing).
Abbreviation heap := (list CssSelectorClass) (only parsing).

(** A computation on the store.  [None] is reserved for a reference that
    points outside the store, which no program of the builder produces. *)
Definition M (A : Type) : Type := heap → option (completion A * heap).

#[global] Instance M_ret : MRet M := λ A a h, Some (Return a, h).

(** Sequencing: an exception skips the rest, the store keeps its updates. *)
#[global] Instance M_bind : MBind M := λ A B k m h,
  match m h with
  | Some (Return a, h') => k a h'
  | Some (Throw msg, h') => Some (Throw msg, h')
  | None => None
  end.

(** [new CssSelectorClass(...)]. *)
Definition new (o : CssSelectorClass) : M loc :=
  λ h, Some (Return (length h), h ++ [o]).

(** A method call [this.m(...)]: run the body on the receiver's fields and
    write them back, also when the body throws. *)
Definition invoke {A} (m : CssSelectorClass → completion A * CssSelectorClass)
    (this : loc) : M A :=
  λ h, match h !! this with
       | Some o => let '(r, o') := m o in Some (r, <[this := o']> h)
       | None => None
       end.

(** The six category methods end in [return this]. *)
Definition fluent (m : CssSelectorClass → completion unit * CssSelectorClass)
    (this : loc) : M loc :=
  _ ← invoke m this; mret this.

(** [this.stringify()]. *)
Definition stringify (this : loc) : M string :=
  invoke (λ o, let '(s, o') := CssSelectorClass.stringify o in (Return s, o'))
         this.

(** An argument of [combine]: an instance ([typeof x === 'object']) or a
    raw string. *)
Inductive selector :=
  | Obj (l : loc)
  | Raw (s : string).

(** ** [const cssSelectorBuilder] *)

Module cssSelectorBuilder.

Definition element (value : string) : M loc :=
  new (CssSelectorClass.constructor "element" value Undefined Undefined Undefined).

Definition id (value : string) : M loc :=
  new (CssSelectorClass.constructor "id" value Undefined Undefined Undefined).

Definition class (value : string) : M loc :=
  new (CssSelectorClass.constructor "className" value Undefined Undefined Undefined).

Definition attr (value : string) : M loc :=
  new (CssSelectorClass.constructor "attr" value Undefined Undefined Undefined).

Definition pseudoClass (value : string) : M loc :=
  new (CssSelectorClass.constructor "pseudoClass" value Undefined Undefined Undefined).

Definition pseudoElement (value : string) : M loc :=
  new (CssSelectorClass.constructor "pseudoElement" value Undefined Undefined Undefined).

Definition combine (selector1 : selector) (combinator : string)
    (selector2 : selector) : M loc :=
  cssSelector1 ← match selector1 with
                 | Obj l => stringify l
                 | Raw s => mret s
                 end;
  cssSelector2 ← match selector2 with
                 | Obj l => stringify l
                 | Raw s => mret s
                 end;
  new (CssSelectorClass.constructor "_" "_"
         (Str cssSelector1) (Str combinator) (Str cssSelector2)).

Definition stringify (value : string) : string := value.

End cssSelectorBuilder.

(** ** Categories and call sequences *)

(** The six kinds of selector part, in the mandated order. *)
Inductive category :=
  | Element | Id | Class | Attr | PseudoClass | PseudoElement.

#[global] Instance category_eq_dec : EqDecision category.
Proof. solve_decision. Defined.

Definition categories : list category :=
  [Element; Id; Class; Attr; PseudoClass; PseudoElement].

(** Position in [element, id, class, attribute, pseudo-class, pseudo-element]. *)
Definition rank (c : category) : nat :=
  match c with
  | Element => 0 | Id => 1 | Class => 2
  | Attr => 3 | PseudoClass => 4 | PseudoElement => 5
  end.

(** The property of [this.main] that holds the category's fragments. *)
Definition key (c : category) : string :=
  match c with
  | Element => "element" | Id => "id" | Class => "className"
  | Attr => "attr" | PseudoClass => "pseudoClass"
  | PseudoElement => "pseudoElement"
  end.

(** The categories limited to one fragment. *)
Definition at_most_one (c : category) : bool :=
  match c with
  | Element | Id | PseudoElement => true
  | Class | Attr | PseudoClass => false
  end.

(** The method of the class, and the method of the facade, for a category. *)
Definition method (c : category)
  : string → CssSelectorClass → completion unit * CssSelectorClass :=
  match c with
  | Element => CssSelectorClass.element
  | Id => CssSelectorClass.id
  | Class => CssSelectorClass.class
  | Attr => CssSelectorClass.attr
  | PseudoClass => CssSelectorClass.pseudoClass
  | PseudoElement => CssSelectorClass.pseudoElement
  end.

Definition facade (c : category) : string → M loc :=
  match c with
  | Element => cssSelectorBuilder.element
  | Id => cssSelectorBuilder.id
  | Class => cssSelectorBuilder.class
  | Attr => cssSelectorBuilder.attr
  | PseudoClass => cssSelectorBuilder.pseudoClass
  | PseudoElement => cssSelectorBuilder.pseudoElement
  end.

(** One category call: the category and the fragment passed. *)
Definition call : Type := category * string.

(** [this.c1(v1).c2(v2)...]: the calls run left to right on one instance,
    the first exception ends the chain. *)
Fixpoint calls (cs : list call) (this : loc) : M loc :=
  match cs with
  | [] => mret this
  | x :: cs => this ← fluent (method x.1 x.2) this; calls cs this
  end.

(** [cssSelectorBuilder.c0(v0).c1(v1)...]. *)
Definition chain (first : call) (rest : list call) : M loc :=
  this ← facade first.1 first.2; calls rest this.

(** The same calls on the fields of one instance: [run] stops at the first
    exception, [exec] is the state reached when the caller catches every
    exception and goes on. *)
Fixpoint run (cs : list call) (o : CssSelectorClass)
  : completion unit * CssSelectorClass :=
  match cs with
  | [] => (Return (), o)
  | x :: cs =>
      match method x.1 x.2 o with
      | (Return _, o') => run cs o'
      | (Throw msg, o') => (Throw msg, o')
      end
  end.

Fixpoint exec (cs : list call) (o : CssSelectorClass) : CssSelectorClass :=
  match cs with
  | [] => o
  | x :: cs => exec cs (method x.1 x.2 o).2
  end.

(** The first statement of every category method, for the category [c]. *)
Definition appended (c : category) (value : string) (o : CssSelectorClass)
  : CssSelectorClass :=
  set_main o (<[key c := default [] (main o !! key c) ++ [value]]> (main o)).

(** The categories after [c] in the mandated order. *)
Definition later (c : category) : list category :=
  List.filter (λ d, rank c <? rank d) categories.

(** The fragments a call sequence passes to the category [c], in call order. *)
Definition fragments (c : category) (cs : list call) : list string :=
  (filter (λ x, x.1 = c) cs).*2.

(** A call sequence follows the mandated order when no call is of an earlier
    category than a call before it. *)
Fixpoint follows_order (cs : list call) : bool :=
  match cs with
  | [] => true
  | x :: rest =>
      forallb (λ y, rank x.1 <=? rank y.1) rest && follows_order rest
  end.

(** It respects the limits when element, id and pseudo-element occur at most
    once each. *)
Definition within_limits (cs : list call) : bool :=
  forallb (λ c, negb (at_most_one c) || (length (fragments c cs) <=? 1))
          categories.

Definition valid_sequence (cs : list call) : bool :=
  follows_order cs && within_limits cs.

(** [models cs o]: the property bag of [o] holds exactly the fragments of the
    calls [cs], category by category, and nothing for an unused category. *)
Definition models (cs : list call) (o : CssSelectorClass) : Prop :=
  ∀ c, main o !! key c =
       match fragments c cs with
       | [] => None
       | fs => Some fs
       end.

(** An instance as the constructor and the methods leave it: the two
    messages are the constructor's and no stored array is empty. *)
Definition well_formed (o : CssSelectorClass) : bool :=
  bool_decide (errorMsgUnique o = UniquenessError)
  && bool_decide (errorMsgOrder o = OrderError)
  && bool_decide (map_Forall (λ _ xs, xs ≠ []) (main o)).

(** ** Arguments of [combine] and clients of the facade *)

(** A reference is in scope of a store of [n] instances. *)
Definition in_scope (n : nat) (a : selector) : bool :=
  match a with
  | Obj l => l <? n
  | Raw _ => true
  end.

Definition allocated (h : heap) (a : selector) : bool :=
  in_scope (length h) a.

(** The string [combine] takes for an argument: [x.stringify()] for an
    instance, the argument itself for a raw string. *)
Definition stringified (a : selector) : M string :=
  match a with
  | Obj l => stringify l
  | Raw s => mret s
  end.

(** What a client can do with the facade and the instances it returned. *)
Inductive operation :=
  | Create (x : call)
  | Combine (a1 : selector) (comb : string) (a2 : selector)
  | CallOn (l : loc) (x : call)
  | StringifyOn (l : loc).

Definition perform1 (p : operation) : M unit :=
  match p with
  | Create x => _ ← facade x.1 x.2; mret ()
  | Combine a1 comb a2 => _ ← cssSelectorBuilder.combine a1 comb a2; mret ()
  | CallOn l x => _ ← fluent (method x.1 x.2) l; mret ()
  | StringifyOn l => _ ← stringify l; mret ()
  end.

(** A client that performs the operations in turn and catches whatever one
    of them throws. *)
Fixpoint perform (ps : list operation) (h : heap) : option heap :=
  match ps with
  | [] => Some h
  | p :: ps =>
      match perform1 p h with
      | Some (_, h') => perform ps h'
      | None => None
      end
  end.

(** The operation is invoked on the instance [l], or hands it to [combine]. *)
Definition uses (p : operation) (l : loc) : bool :=
  match p with
  | Create _ => false
  | Combine a1 _ a2 =>
      match a1 with Obj l1 => l1 =? l | Raw _ => false end
      || match a2 with Obj l2 => l2 =? l | Raw _ => false end
  | CallOn l' _ | StringifyOn l' => l' =? l
  end.

(** The references of the operation are in scope of a store of [n]
    instances, and the number of instances after it. *)
Definition scoped (p : operation) (n : nat) : bool :=
  match p with
  | Create _ => true
  | Combine a1 _ a2 => in_scope n a1 && in_scope n a2
  | CallOn l _ | StringifyOn l => l <? n
  end.

Definition created (p : operation) (n : nat) : nat :=
  match p with
  | Create _ | Combine _ _ _ => S n
  | CallOn _ _ | StringifyOn _ => n
  end.

(** Every reference is used after the operation that returned it. *)
Fixpoint well_scoped (ps : list operation) (n : nat) : bool :=
  match ps with
  | [] => true
  | p :: ps => scoped p n && well_scoped ps (created p n)
  end.

(** ** States that break the invariants of the data model *)

(** Some category limited to one fragment holds two or more. *)
Definition violates_uniqueness (o : CssSelectorClass) : bool :=
  existsb (λ c, at_most_one c
                && (2 <=? length (default [] (main o !! key c))))
          categories.

(** ** The stringification rule in the specification's words *)

(** A category that is present contributes its fragments joined with the
    glue, between a prefix and a suffix; an absent one contributes nothing. *)
Definition contribution (prefix glue suffix : string) (fs : list string)
  : string :=
  match fs with
  | [] => ""
  | _ => prefix +:+ join glue fs +:+ suffix
  end.

Definition spec_stringify (cs : list call) : string :=
  contribution "" "" "" (fragments Element cs)
  +:+ contribution "#" "" "" (fragments Id cs)
  +:+ contribution "." "." "" (fragments Class cs)
  +:+ contribution "[" "" "]" (fragments Attr cs)
  +:+ contribution ":" ":" "" (fragments PseudoClass cs)
  +:+ contribution "::" "" "" (fragments PseudoElement cs).

(** ** The selector in call order *)

(** What one call contributes when written on its own, as in
    [element#id.class[attr]:pseudoClass::pseudoElement]. *)
Definition token (c : category) (v : string) : string :=
  match c with
  | Element => v
  | Id => "#" +:+ v
  | Class => "." +:+ v
  | Attr => "[" +:+ v +:+ "]"
  | PseudoClass => ":" +:+ v
  | PseudoElement => "::" +:+ v
  end.

(** The tokens of a call sequence, one after the other. *)
Definition tokens (cs : list call) : string :=
  foldr (λ x acc, token x.1 x.2 +:+ acc) "" cs.

(** * Properties *)

(** ** The methods, uniformly in the category *)

Lemma key_inj c d : key c = key d → c = d.
Proof. by destruct c, d. Qed.

Lemma method_unfold c v o :
  method c v o =
  ((if at_most_one c && (1 <=? length (default [] (main o !! key c)))
    then Throw (errorMsgUnique o)
    else if existsb (λ d, truthy (main o !! key d)) (later c)
         then Throw (errorMsgOrder o)
         else Return ()),
   appended c v o).
Proof.
  destruct (main o !! key c) as [xs|] eqn:E;
    destruct c; cbn [key] in E;
    unfold method, CssSelectorClass.element, CssSelectorClass.id,
      CssSelectorClass.class, CssSelectorClass.attr,
      CssSelectorClass.pseudoClass, CssSelectorClass.pseudoElement, appended;
    cbn [main errorMsgUnique errorMsgOrder set_main key at_most_one andb];
    rewrite ?lookup_insert_eq, ?lookup_insert_ne by done;
    rewrite ?E; cbn; rewrite ?length_app, ?Nat.add_1_r, ?orb_false_r, ?orb_assoc; cbn;
    try destruct (length xs); cbn;
    try match goal with |- context [if ?b then _ else _] => destruct b end;
    reflexivity.
Qed.


Lemma appended_lookup c v o :
  main (appended c v o) !! key c = Some (default [] (main o !! key c) ++ [v]).
Proof. apply lookup_insert_eq. Qed.

Lemma appended_lookup_ne c v o k :
  k ≠ key c → main (appended c v o) !! k = main o !! k.
Proof. intros Hk. by apply lookup_insert_ne. Qed.

Lemma appended_truthy c v o k :
  truthy (main o !! k) = true → truthy (main (appended c v o) !! k) = true.
Proof.
  destruct (decide (k = key c)) as [->|Hk].
  - by rewrite appended_lookup.
  - by rewrite appended_lookup_ne.
Qed.

Lemma method_state c v o : (method c v o).2 = appended c v o.
Proof. by rewrite method_unfold. Qed.

Lemma in_later c d : In d (later c) ↔ rank c < rank d.
Proof.
  unfold later. rewrite List.filter_In, Nat.ltb_lt. split; [tauto|].
  intros H. split; [|done]. destruct d; cbn; tauto.
Qed.

(** ** Fragments of a call sequence *)

Lemma fragments_app c cs1 cs2 :
  fragments c (cs1 ++ cs2) = fragments c cs1 ++ fragments c cs2.
Proof. unfold fragments. by rewrite filter_app, fmap_app. Qed.

Lemma fragments_one_eq c v : fragments c [(c, v)] = [v].
Proof. unfold fragments. by rewrite filter_cons_True. Qed.

Lemma fragments_one_ne c d v : d ≠ c → fragments d [(c, v)] = [].
Proof. intros H. unfold fragments. rewrite filter_cons_False; [done|]. cbn. congruence. Qed.

Lemma fragments_nil_iff c cs :
  fragments c cs = [] ↔ ∀ x, x ∈ cs → x.1 ≠ c.
Proof.
  unfold fragments. induction cs as [|a cs IH].
  - split; [|done]. intros _ x Hx. by apply not_elem_of_nil in Hx.
  - rewrite filter_cons. destruct (decide (a.1 = c)) as [Ha|Ha]; cbn.
    + split; [done|]. intros H. exfalso. apply (H a); [left|done].
    + rewrite IH. split.
      * intros H x [->|Hx]%elem_of_cons; auto.
      * intros H x Hx. apply H. by right.
Qed.

Lemma follows_order_app cs1 cs2 :
  follows_order (cs1 ++ cs2) = true ↔
  follows_order cs1 = true ∧ follows_order cs2 = true
  ∧ ∀ x y, x ∈ cs1 → y ∈ cs2 → rank x.1 ≤ rank y.1.
Proof.
  induction cs1 as [|a cs1 IH]; cbn.
  - split; [|tauto]. intros H. repeat split; [done|].
    intros x y Hx. by apply not_elem_of_nil in Hx.
  - rewrite !andb_true_iff, forallb_app, andb_true_iff, IH, !forallb_forall.
    setoid_rewrite Nat.leb_le. setoid_rewrite <- list_elem_of_In. split.
    + intros [[H1 H2] (H3 & H4 & H5)]. repeat split; try done.
      intros x y [->|Hx]%elem_of_cons Hy; auto.
    + intros ([H1 H2] & H3 & H4). repeat split; try done.
      * intros y Hy. apply H4; [left|done].
      * intros x y Hx Hy. apply H4; [by right|done].
Qed.

Lemma within_limits_iff cs :
  within_limits cs = true ↔
  ∀ c, at_most_one c = true → length (fragments c cs) ≤ 1.
Proof.
  unfold within_limits. rewrite forallb_forall. split.
  - intros H c Hc. specialize (H c). rewrite Hc in H. cbn in H.
    apply Nat.leb_le, H. destruct c; cbn; tauto.
  - intros H c _. destruct (at_most_one c) eqn:Hc; [|done]. cbn.
    by apply Nat.leb_le, H.
Qed.

Lemma within_limits_app_l cs1 cs2 :
  within_limits (cs1 ++ cs2) = true → within_limits cs1 = true.
Proof.
  rewrite !within_limits_iff. intros H c Hc. specialize (H c Hc).
  rewrite fragments_app, length_app in H. lia.
Qed.

Lemma valid_sequence_app_l cs1 cs2 :
  valid_sequence (cs1 ++ cs2) = true → valid_sequence cs1 = true.
Proof.
  unfold valid_sequence. rewrite !andb_true_iff, follows_order_app.
  intros [(H1 & _ & _) H2]. split; [done|]. by eapply within_limits_app_l.
Qed.

(** ** The property bag after a call sequence *)

Lemma models_default cs o c :
  models cs o → default [] (main o !! key c) = fragments c cs.
Proof. intros H. rewrite (H c). by destruct (fragments c cs). Qed.

Lemma models_constructor c v s1 cb s2 :
  models [(c, v)] (CssSelectorClass.constructor (key c) v s1 cb s2).
Proof.
  intros d. cbn [CssSelectorClass.constructor main].
  destruct (decide (d = c)) as [->|Hd].
  - by rewrite lookup_insert_eq, fragments_one_eq.
  - rewrite lookup_insert_ne, lookup_empty, fragments_one_ne; [done..|].
    intros Hk. by apply key_inj in Hk.
Qed.

Lemma models_appended cs o c v :
  models cs o → models (cs ++ [(c, v)]) (appended c v o).
Proof.
  intros H d. rewrite fragments_app. destruct (decide (d = c)) as [->|Hd].
  - rewrite appended_lookup, (models_default cs), fragments_one_eq by done.
    by destruct (fragments c cs).
  - rewrite appended_lookup_ne, fragments_one_ne, app_nil_r by
      (done || intros Hk; by apply key_inj in Hk).
    apply H.
Qed.

Lemma method_valid cs o c v :
  models cs o → valid_sequence (cs ++ [(c, v)]) = true →
  method c v o = (Return (), appended c v o).
Proof.
  intros Hm [Hord Hlim]%andb_true_iff. rewrite method_unfold.
  apply follows_order_app in Hord as (_ & _ & Hord).
  rewrite within_limits_iff in Hlim.
  replace (at_most_one c && _) with false; cycle 1.
  { destruct (at_most_one c) eqn:Hc; [|done]. cbn.
    specialize (Hlim c Hc).
    rewrite fragments_app, fragments_one_eq, length_app in Hlim. cbn in Hlim.
    rewrite (models_default cs) by done.
    destruct (fragments c cs); [done|]. cbn in Hlim. lia. }
  destruct (existsb _ _) eqn:Hex; [|done].
  apply existsb_exists in Hex as (d & Hd%in_later & Ht).
  rewrite (Hm d) in Ht.
  assert (fragments d cs = []) as Hnil; [|by rewrite Hnil in Ht].
  apply fragments_nil_iff. intros x Hx Hxd.
  specialize (Hord x (c, v) Hx). cbn in Hord. rewrite Hxd in Hord.
  assert (rank d ≤ rank c) by (apply Hord; left). lia.
Qed.

Lemma exec_app cs1 cs2 o : exec (cs1 ++ cs2) o = exec cs2 (exec cs1 o).
Proof. revert o. induction cs1 as [|x cs1 IH]; intros o; cbn; [done|apply IH]. Qed.

Lemma exec_fields cs o :
  selector1 (exec cs o) = selector1 o
  ∧ combinator (exec cs o) = combinator o
  ∧ selector2 (exec cs o) = selector2 o
  ∧ errorMsgUnique (exec cs o) = errorMsgUnique o
  ∧ errorMsgOrder (exec cs o) = errorMsgOrder o.
Proof.
  revert o. induction cs as [|x cs IH]; intros o; cbn; [done|].
  rewrite method_state. destruct (IH (appended x.1 x.2 o)) as (-> & -> & -> & -> & ->).
  done.
Qed.

Lemma run_valid cs : ∀ pre o,
  models pre o → valid_sequence (pre ++ cs) = true →
  run cs o = (Return (), exec cs o) ∧ models (pre ++ cs) (exec cs o).
Proof.
  induction cs as [|[c v] cs IH]; intros pre o Hm Hv; cbn.
  - by rewrite app_nil_r.
  - rewrite cons_middle, app_assoc in Hv |- *.
    rewrite (method_valid pre) by eauto using valid_sequence_app_l.
    cbn. apply IH; [by apply models_appended|done].
Qed.

(** ** Chains on the store *)

Lemma facade_eq c v h :
  facade c v h =
  Some (Return (length h),
        h ++ [CssSelectorClass.constructor (key c) v Undefined Undefined Undefined]).
Proof. by destruct c. Qed.

Lemma invoke_eq {A} (m : CssSelectorClass → completion A * CssSelectorClass)
    l (h : heap) o :
  h !! l = Some o → invoke m l h = Some ((m o).1, <[l := (m o).2]> h).
Proof. intros H. unfold invoke. rewrite H. by destruct (m o). Qed.

Lemma fluent_eq m l (h : heap) o :
  h !! l = Some o →
  fluent m l h =
  Some (match (m o).1 with Return _ => Return l | Throw msg => Throw msg end,
        <[l := (m o).2]> h).
Proof.
  intros H. unfold fluent, mbind, M_bind. rewrite (invoke_eq m l h o H).
  by destruct (m o).1.
Qed.

Lemma stringify_eq l (h : heap) o :
  h !! l = Some o →
  stringify l h =
  Some (Return (CssSelectorClass.stringify o).1,
        <[l := (CssSelectorClass.stringify o).2]> h).
Proof.
  intros H. unfold stringify. rewrite (invoke_eq _ l h o H).
  by destruct (CssSelectorClass.stringify o).
Qed.

Lemma calls_run cs : ∀ l (h : heap) o,
  h !! l = Some o →
  calls cs l h =
  Some (match (run cs o).1 with Return _ => Return l | Throw msg => Throw msg end,
        <[l := (run cs o).2]> h).
Proof.
  induction cs as [|x cs IH]; intros l h o H; cbn [calls run fst snd].
  - by rewrite list_insert_id.
  - unfold mbind, M_bind. rewrite (fluent_eq _ l h o H).
    destruct (method x.1 x.2 o) as [[[]|msg] o']; cbn; [|done].
    rewrite (IH l _ o'), list_insert_insert_eq; [done|].
    apply list_lookup_insert_eq. by eapply lookup_lt_Some.
Qed.

Lemma chain_run first rest (h : heap) :
  chain first rest h =
  Some (match (run rest (CssSelectorClass.constructor (key first.1) first.2
                           Undefined Undefined Undefined)).1 with
        | Return _ => Return (length h)
        | Throw msg => Throw msg
        end,
        h ++ [(run rest (CssSelectorClass.constructor (key first.1) first.2
                           Undefined Undefined Undefined)).2]).
Proof.
  unfold chain, mbind, M_bind. rewrite facade_eq.
  rewrite (calls_run rest (length h) _ _ (list_lookup_middle h [] _ _ eq_refl)).
  f_equal. f_equal.
  by rewrite <- (Nat.add_0_r (length h)), insert_app_r.
Qed.

(** ** Stringification of a simple selector *)

Lemma append_nil_r (s : string) : s +:+ "" = s.
Proof.
  induction s as [|a s IH]; [done|].
  change (String a (s +:+ "") = String a s). by rewrite IH.
Qed.

Lemma append_assoc (s1 s2 s3 : string) :
  (s1 +:+ s2) +:+ s3 = s1 +:+ (s2 +:+ s3).
Proof.
  induction s1 as [|a s1 IH]; [done|].
  change (String a ((s1 +:+ s2) +:+ s3) = String a (s1 +:+ (s2 +:+ s3))).
  by rewrite IH.
Qed.

Lemma stringify_models cs o :
  models cs o → ToBoolean (combinator o) = false →
  CssSelectorClass.stringify o = (spec_stringify cs, set_main o ∅).
Proof.
  intros Hm Hc. unfold CssSelectorClass.stringify. rewrite Hc. f_equal.
  pose proof (Hm Element) as HE. pose proof (Hm Id) as HI.
  pose proof (Hm Class) as HC. pose proof (Hm Attr) as HA.
  pose proof (Hm PseudoClass) as HP. pose proof (Hm PseudoElement) as HQ.
  cbn [key] in *. rewrite HE, HI, HC, HA, HP, HQ. clear.
  unfold spec_stringify.
  destruct (fragments Element cs), (fragments Id cs), (fragments Class cs),
    (fragments Attr cs), (fragments PseudoClass cs),
    (fragments PseudoElement cs);
    unfold contribution;
    repeat (rewrite ?append_assoc, ?append_nil_r; cbv [String.append]; fold String.append);
    reflexivity.
Qed.

Lemma chain_valid first rest (h : heap) :
  valid_sequence (first :: rest) = true →
  chain first rest h
  = Some (Return (length h),
          h ++ [exec rest (CssSelectorClass.constructor (key first.1) first.2
                             Undefined Undefined Undefined)])
  ∧ models (first :: rest)
      (exec rest (CssSelectorClass.constructor (key first.1) first.2
                    Undefined Undefined Undefined)).
Proof.
  intros Hv. destruct first as [c v]. cbn [fst snd].
  destruct (run_valid rest [(c, v)]
              (CssSelectorClass.constructor (key c) v Undefined Undefined Undefined))
    as [Hrun Hm]; [apply models_constructor|done|].
  split; [|done]. rewrite chain_run. cbn [fst snd]. by rewrite Hrun.
Qed.

(** C1.  A chain of category calls that follows the mandated order and
    respects the at-most-one limits completes, and [stringify()] on the
    resulting instance returns the concatenation, in the order element, id,
    class, attribute, pseudo-class, pseudo-element, of each present
    category's fragments with its glue: element joined with the empty string
    and no prefix, id prefixed [#], class prefixed [.] and joined with [.],
    attribute joined with the empty string inside one pair of brackets,
    pseudo-class prefixed [:] and joined with [:], pseudo-element prefixed
    [::]; absent categories contribute nothing. *)
Theorem stringify_valid_chain (first : call) (rest : list call) (h : heap) :
  valid_sequence (first :: rest) = true →
  ∃ h', (this ← chain first rest; stringify this) h
        = Some (Return (spec_stringify (first :: rest)), h').
Proof.
  intros Hv. destruct (chain_valid first rest h Hv) as [Hc Hm].
  unfold mbind, M_bind. rewrite Hc.
  rewrite (stringify_eq (length h) _ _ (list_lookup_middle h [] _ _ eq_refl)).
  rewrite (stringify_models (first :: rest)); [by eexists|done|].
  by destruct (exec_fields rest
    (CssSelectorClass.constructor (key first.1) first.2 Undefined Undefined Undefined))
    as (_ & -> & _).
Qed.

Lemma stringify_valid_chain_witness :
  ∃ h', (this ← chain (Id, "main") [(Class, "container"); (Class, "editable")];
         stringify this) []
        = Some (Return "#main.container.editable", h').
Proof.
  exact (stringify_valid_chain
           (Id, "main") [(Class, "container"); (Class, "editable")] [] eq_refl).
Defined.

(** ** [stringify] and [combine] *)

Lemma stringify_state o : (CssSelectorClass.stringify o).2 = set_main o ∅.
Proof. unfold CssSelectorClass.stringify. by destruct (ToBoolean _). Qed.

Lemma stringify_compound o :
  ToBoolean (combinator o) = true →
  (CssSelectorClass.stringify o).1
  = ToString (selector1 o) +:+ " " +:+ ToString (combinator o)
      +:+ " " +:+ ToString (selector2 o).
Proof. intros H. unfold CssSelectorClass.stringify. by rewrite H. Qed.

Lemma models_nil_cleared o : models [] (set_main o ∅).
Proof. intros c. cbn. apply lookup_empty. Qed.

Lemma stringify_cleared o :
  ToBoolean (combinator o) = false →
  (CssSelectorClass.stringify (set_main o ∅)).1 = "".
Proof.
  intros H. by rewrite (stringify_models [] _ (models_nil_cleared o) H).
Qed.

Lemma stringify_at l (h : heap) o :
  h !! l = Some o →
  stringify l h
  = Some (Return (CssSelectorClass.stringify o).1, <[l := set_main o ∅]> h).
Proof. intros H. by rewrite (stringify_eq l h o H), stringify_state. Qed.

Lemma stringified_total a (h : heap) :
  allocated h a = true →
  ∃ s h1, stringified a h = Some (Return s, h1) ∧ length h1 = length h.
Proof.
  destruct a as [l|s]; cbn.
  - intros Hl%Nat.ltb_lt. destruct (lookup_lt_is_Some_2 h l Hl) as [o Ho].
    rewrite (stringify_at l h o Ho). eexists _, _. split; [done|].
    by rewrite length_insert.
  - intros _. by eexists _, _.
Qed.

Lemma combine_eq a1 comb a2 (h : heap) s1 h1 s2 h2 :
  stringified a1 h = Some (Return s1, h1) →
  stringified a2 h1 = Some (Return s2, h2) →
  cssSelectorBuilder.combine a1 comb a2 h
  = Some (Return (length h2),
          h2 ++ [CssSelectorClass.constructor "_" "_"
                   (Str s1) (Str comb) (Str s2)]).
Proof.
  intros H1 H2.
  change (cssSelectorBuilder.combine a1 comb a2 h) with
    ((cssSelector1 ← stringified a1; cssSelector2 ← stringified a2;
      new (CssSelectorClass.constructor "_" "_"
             (Str cssSelector1) (Str comb) (Str cssSelector2))) h).
  unfold mbind, M_bind. by rewrite H1, H2.
Qed.

Lemma combine_total a1 comb a2 (h : heap) :
  allocated h a1 = true → allocated h a2 = true →
  ∃ s1 h1 s2 h2,
    stringified a1 h = Some (Return s1, h1)
    ∧ stringified a2 h1 = Some (Return s2, h2)
    ∧ length h2 = length h
    ∧ cssSelectorBuilder.combine a1 comb a2 h
      = Some (Return (length h),
              h2 ++ [CssSelectorClass.constructor "_" "_"
                       (Str s1) (Str comb) (Str s2)]).
Proof.
  intros Ha1 Ha2.
  destruct (stringified_total a1 h Ha1) as (s1 & h1 & H1 & Hl1).
  assert (allocated h1 a2 = true) as Ha2' by (unfold allocated; by rewrite Hl1).
  destruct (stringified_total a2 h1 Ha2') as (s2 & h2 & H2 & Hl2).
  exists s1, h1, s2, h2. repeat split; [done|done|congruence|].
  rewrite (combine_eq a1 comb a2 h s1 h1 s2 h2 H1 H2). do 3 f_equal. congruence.
Qed.

Lemma ToBoolean_Str s : ToBoolean (Str s) = true ↔ s ≠ "".
Proof.
  cbn. rewrite negb_true_iff. split.
  - intros H ->. by rewrite String.eqb_refl in H.
  - intros H. by apply String.eqb_neq.
Qed.

(** C2.  For instances or raw strings [a1], [a2] and a combinator token,
    [combine(a1, comb, a2).stringify()] returns [s1 + ' ' + comb + ' ' + s2],
    where [s1] and [s2] are what stringifying the first and then the second
    argument returns.  The token may be any non-empty string, in particular
    each of [' '], ['+'], ['~'], ['>']. *)
Theorem combine_stringify (a1 : selector) (comb : string) (a2 : selector)
    (h : heap) :
  allocated h a1 = true → allocated h a2 = true → comb ≠ "" →
  ∃ s1 h1 s2 h2 h',
    stringified a1 h = Some (Return s1, h1)
    ∧ stringified a2 h1 = Some (Return s2, h2)
    ∧ (this ← cssSelectorBuilder.combine a1 comb a2; stringify this) h
      = Some (Return (s1 +:+ " " +:+ comb +:+ " " +:+ s2), h').
Proof.
  intros Ha1 Ha2 Hc.
  destruct (combine_total a1 comb a2 h Ha1 Ha2) as (s1 & h1 & s2 & h2 & H1 & H2 & Hl & Hcomb).
  exists s1, h1, s2, h2. eexists. repeat split; [done..|].
  unfold mbind, M_bind. rewrite Hcomb, <- Hl.
  rewrite (stringify_at (length h2) _ _ (list_lookup_middle h2 [] _ _ eq_refl)).
  rewrite stringify_compound; [done|]. by apply ToBoolean_Str.
Qed.

Lemma combine_stringify_witness :
  ∃ h0 h',
    (_ ← chain (Element, "tr") [(PseudoClass, "nth-of-type(even)")];
     chain (Element, "td") [(PseudoClass, "nth-of-type(even)")]) []
    = Some (Return 1, h0)
    ∧ (this ← cssSelectorBuilder.combine (Obj 0) " " (Obj 1); stringify this) h0
      = Some (Return "tr:nth-of-type(even)   td:nth-of-type(even)", h').
Proof.
  set (h0 :=
    [exec [(PseudoClass, "nth-of-type(even)")]
       (CssSelectorClass.constructor "element" "tr" Undefined Undefined Undefined);
     exec [(PseudoClass, "nth-of-type(even)")]
       (CssSelectorClass.constructor "element" "td" Undefined Undefined Undefined)]).
  destruct (combine_stringify (Obj 0) " " (Obj 1) h0 eq_refl eq_refl
              ltac:(discriminate))
    as (s1 & h1 & s2 & h2 & h' & H1 & H2 & H3).
  exists h0, h'. split; [vm_compute; reflexivity|].
  vm_compute in H1. injection H1 as <- <-.
  vm_compute in H2. injection H2 as <- <-.
  exact H3.
Defined.

Lemma combinator_tokens_truthy :
  Forall (λ comb, comb ≠ "") [" "; "+"; "~"; ">"].
Proof. repeat constructor; discriminate. Qed.

(** An empty-string combinator is falsy: the instance [combine] returns is
    then stringified as a simple selector without fragments. *)
Lemma combine_empty_combinator a1 a2 (h : heap) :
  allocated h a1 = true → allocated h a2 = true →
  ∃ h', (this ← cssSelectorBuilder.combine a1 "" a2; stringify this) h
        = Some (Return "", h').
Proof.
  intros Ha1 Ha2.
  destruct (combine_total a1 "" a2 h Ha1 Ha2) as (s1 & h1 & s2 & h2 & H1 & H2 & Hl & Hcomb).
  eexists. unfold mbind, M_bind. rewrite Hcomb, <- Hl.
  rewrite (stringify_at (length h2) _ _ (list_lookup_middle h2 [] _ _ eq_refl)).
  rewrite (stringify_models []); [done| |done].
  intros c. by destruct c.
Qed.

(** C5, as amended.  [stringify()] leaves every instance with an empty
    property bag; on a simple selector (no truthy combinator) a second
    [stringify()] therefore returns the empty string. *)
Theorem stringify_clears_state (l : loc) (o : CssSelectorClass) (h : heap) :
  h !! l = Some o →
  ∃ s h1 o1,
    stringify l h = Some (Return s, h1)
    ∧ h1 !! l = Some o1 ∧ main o1 = ∅
    ∧ (ToBoolean (combinator o) = false →
       ∃ h2, stringify l h1 = Some (Return "", h2)).
Proof.
  intros Ho. rewrite (stringify_at l h o Ho).
  assert (<[l := set_main o ∅]> h !! l = Some (set_main o ∅)) as Ho1
    by (apply list_lookup_insert_eq; by eapply lookup_lt_Some).
  eexists _, _, _. repeat split; [exact Ho1|done|].
  intros Hc. rewrite (stringify_at l _ _ Ho1), stringify_cleared by done.
  by eexists.
Qed.

Lemma stringify_clears_state_witness :
  ∃ s h1 o1,
    stringify 0 [CssSelectorClass.constructor "id" "main" Undefined Undefined Undefined]
    = Some (Return s, h1)
    ∧ h1 !! 0 = Some o1 ∧ main o1 = ∅
    ∧ (false = false → ∃ h2, stringify 0 h1 = Some (Return "", h2)).
Proof.
  exact (stringify_clears_state 0
           (CssSelectorClass.constructor "id" "main" Undefined Undefined Undefined)
           [CssSelectorClass.constructor "id" "main" Undefined Undefined Undefined]
           eq_refl).
Defined.

(** C5 as stated fails on a compound selector: the second [stringify()]
    returns the compound string again, not the empty string. *)
Lemma stringify_twice_compound_nonempty :
  ∃ h', (this ← cssSelectorBuilder.combine (Raw "a") "+" (Raw "b");
         _ ← stringify this; stringify this) []
        = Some (Return "a + b", h')
  ∧ "a + b" ≠ "".
Proof. eexists. split; [vm_compute; reflexivity|discriminate]. Qed.

(** C10.  A compound selector returned by [combine] can be stringified
    repeatedly: the children and the combinator are stored as strings in
    fields that [stringify] does not clear, so the second call returns the
    string of the first. *)
Theorem compound_stringify_repeatable (a1 : selector) (comb : string)
    (a2 : selector) (h : heap) :
  allocated h a1 = true → allocated h a2 = true →
  ∃ l o s h1 h2 h3,
    cssSelectorBuilder.combine a1 comb a2 h = Some (Return l, h1)
    ∧ h1 !! l = Some o
    ∧ stringify l h1 = Some (Return s, h2)
    ∧ h2 !! l = Some (set_main o ∅)
    ∧ stringify l h2 = Some (Return s, h3).
Proof.
  intros Ha1 Ha2.
  destruct (combine_total a1 comb a2 h Ha1 Ha2) as (s1 & h1 & s2 & h2 & H1 & H2 & Hl & Hcomb).
  set (o := CssSelectorClass.constructor "_" "_" (Str s1) (Str comb) (Str s2)) in *.
  assert ((h2 ++ [o]) !! length h = Some o) as Ho
    by (rewrite <- Hl; by apply list_lookup_middle).
  assert (<[length h := set_main o ∅]> (h2 ++ [o]) !! length h = Some (set_main o ∅)) as Ho1
    by (apply list_lookup_insert_eq; by eapply lookup_lt_Some).
  assert ((CssSelectorClass.stringify (set_main o ∅)).1
          = (CssSelectorClass.stringify o).1) as Hs.
  { destruct (ToBoolean (combinator o)) eqn:Hc.
    - by rewrite !stringify_compound.
    - rewrite (stringify_models [] o), stringify_cleared; [done..| |done].
      intros c. by destruct c. }
  exists (length h), o. eexists _, _, _, _.
  split; [exact Hcomb|]. split; [exact Ho|].
  split; [exact (stringify_at _ _ _ Ho)|]. split; [exact Ho1|].
  by rewrite (stringify_at _ _ _ Ho1), Hs.
Qed.

Lemma compound_stringify_repeatable_witness :
  ∃ l o s h1 h2 h3,
    cssSelectorBuilder.combine (Raw "a") ">" (Raw "b") [] = Some (Return l, h1)
    ∧ h1 !! l = Some o
    ∧ stringify l h1 = Some (Return s, h2)
    ∧ h2 !! l = Some (set_main o ∅)
    ∧ stringify l h2 = Some (Return s, h3).
Proof.
  exact (compound_stringify_repeatable (Raw "a") ">" (Raw "b") [] eq_refl eq_refl).
Defined.

(** ** Well-formed instances *)

Lemma well_formed_iff o :
  well_formed o = true ↔
  errorMsgUnique o = UniquenessError
  ∧ errorMsgOrder o = OrderError
  ∧ ∀ k xs, main o !! k = Some xs → xs ≠ [].
Proof.
  unfold well_formed. rewrite !andb_true_iff, !bool_decide_eq_true.
  unfold map_Forall. tauto.
Qed.

Lemma well_formed_constructor k v s1 cb s2 :
  well_formed (CssSelectorClass.constructor k v s1 cb s2) = true.
Proof.
  apply well_formed_iff. repeat split. cbn. intros k' xs.
  rewrite lookup_insert_Some, lookup_empty. by intros [[_ <-]|[_ ?]].
Qed.

Lemma well_formed_appended c v o :
  well_formed o = true → well_formed (appended c v o) = true.
Proof.
  rewrite !well_formed_iff. intros (Hu & Ho & Hm). repeat split; [done..|].
  cbn. intros k xs. rewrite lookup_insert_Some. intros [[_ <-]|[_ H]].
  - by destruct (default [] _).
  - by eapply Hm.
Qed.

Lemma well_formed_cleared o :
  well_formed o = true → well_formed (set_main o ∅) = true.
Proof.
  rewrite !well_formed_iff. intros (Hu & Ho & Hm). repeat split; [done..|].
  cbn. intros k xs. by rewrite lookup_empty.
Qed.

Lemma well_formed_exec cs : ∀ o,
  well_formed o = true → well_formed (exec cs o) = true.
Proof.
  induction cs as [|x cs IH]; intros o H; cbn; [done|].
  apply IH. rewrite method_state. by apply well_formed_appended.
Qed.

Lemma exec_truthy cs : ∀ o k,
  truthy (main o !! k) = true → truthy (main (exec cs o) !! k) = true.
Proof.
  induction cs as [|x cs IH]; intros o k H; cbn; [done|].
  apply IH. rewrite method_state. by apply appended_truthy.
Qed.

Lemma messages_distinct : UniquenessError ≠ OrderError.
Proof. discriminate. Qed.

(** The completion of a category method on a well-formed instance: the
    uniqueness check comes first, then the order check. *)
Lemma method_completion c v o :
  well_formed o = true →
  (method c v o).1 =
  if at_most_one c && truthy (main o !! key c) then Throw UniquenessError
  else if existsb (λ d, truthy (main o !! key d)) (later c)
       then Throw OrderError
       else Return ().
Proof.
  intros (Hu & Ho & Hm)%well_formed_iff. rewrite method_unfold. cbn [fst].
  rewrite Hu, Ho. f_equal. f_equal.
  destruct (main o !! key c) as [xs|] eqn:E; [|done]. cbn.
  specialize (Hm _ _ E). by destruct xs.
Qed.

Lemma later_truthy c d o :
  rank c < rank d → truthy (main o !! key d) = true →
  existsb (λ d, truthy (main o !! key d)) (later c) = true.
Proof.
  intros Hr Ht. apply existsb_exists. exists d. split; [|done].
  by apply in_later.
Qed.

(** ** Completed chains are valid sequences *)

Lemma method_return_valid pre o c v :
  models pre o → valid_sequence pre = true →
  (method c v o).1 = Return () →
  valid_sequence (pre ++ [(c, v)]) = true.
Proof.
  intros Hm [Hord Hlim]%andb_true_iff. rewrite method_unfold. cbn [fst].
  destruct (at_most_one c && _) eqn:Hu; [done|].
  destruct (existsb _ _) eqn:Hl; [done|]. intros _.
  rewrite (models_default pre) in Hu by done.
  apply andb_true_iff. split.
  - apply follows_order_app. repeat split; [done..|].
    intros x y Hx ->%list_elem_of_singleton. cbn.
    destruct (decide (rank x.1 ≤ rank c)) as [|Hr]; [done|]. exfalso.
    assert (truthy (main o !! key x.1) = true) as Ht.
    { rewrite (Hm x.1). destruct (fragments x.1 pre) eqn:E; [|done].
      by destruct (proj1 (fragments_nil_iff x.1 pre) E x Hx). }
    rewrite (later_truthy c x.1 o) in Hl; [done|lia|done].
  - rewrite within_limits_iff in Hlim |- *. intros d Hd.
    rewrite fragments_app, length_app. destruct (decide (d = c)) as [->|Hdc].
    + rewrite fragments_one_eq, Hd in *. cbn in *.
      destruct (fragments c pre); [done|done].
    + rewrite fragments_one_ne by done. specialize (Hlim d Hd). cbn. lia.
Qed.

Lemma run_return_valid rest : ∀ pre o,
  models pre o → valid_sequence pre = true →
  (run rest o).1 = Return () →
  valid_sequence (pre ++ rest) = true.
Proof.
  induction rest as [|[c v] rest IH]; intros pre o Hm Hv; cbn.
  - by rewrite app_nil_r.
  - rewrite cons_middle, app_assoc.
    pose proof (method_return_valid pre o c v Hm Hv) as Hstep.
    pose proof (method_state c v o) as Hst.
    destruct (method c v o) as [[[]|msg] o']; cbn in *; [|done].
    subst o'. intros Hr. apply (IH _ (appended c v o)); [|by apply Hstep|done].
    by apply models_appended.
Qed.

Lemma valid_sequence_one x : valid_sequence [x] = true.
Proof.
  apply andb_true_iff. split; [done|]. apply within_limits_iff. intros c _.
  destruct x as [d v]. destruct (decide (c = d)) as [->|H].
  - by rewrite fragments_one_eq.
  - rewrite fragments_one_ne by done. cbn. lia.
Qed.

Lemma chain_return_valid first rest (h : heap) l h' :
  chain first rest h = Some (Return l, h') →
  valid_sequence (first :: rest) = true.
Proof.
  rewrite chain_run. intros H.
  apply (run_return_valid rest [first]
           (CssSelectorClass.constructor (key first.1) first.2
              Undefined Undefined Undefined)).
  - destruct first. apply models_constructor.
  - apply valid_sequence_one.
  - destruct (run rest _).1 as [[]|]; [done|]. by injection H.
Qed.

Lemma exec_head_truthy D v mid o :
  truthy (main (exec ((D, v) :: mid) o) !! key D) = true.
Proof.
  cbn [exec fst snd]. apply exec_truthy. by rewrite method_state, appended_lookup.
Qed.

(** C3, as amended.  Once a fragment of a category [D] has been added to an
    instance, every later call that adds a fragment of an earlier category
    [C] raises an error, whatever was called in between: [OrderError], or
    [UniquenessError] when [C] is element or id and already holds a fragment
    (the uniqueness check runs first).  Equivalently, a chain that completes
    without an error follows the mandated order. *)
Theorem order_enforced :
  (∀ (o : CssSelectorClass) (C D : category) (v w : string) (mid : list call),
     well_formed o = true → rank C < rank D →
     (method C w (exec ((D, v) :: mid) o)).1 =
     if at_most_one C && truthy (main (exec ((D, v) :: mid) o) !! key C)
     then Throw UniquenessError else Throw OrderError)
  ∧ (∀ (first : call) (rest : list call) (h : heap) l h',
       chain first rest h = Some (Return l, h') →
       follows_order (first :: rest) = true).
Proof.
  split.
  - intros o C D v w mid Hwf Hr.
    rewrite method_completion by by apply well_formed_exec.
    destruct (at_most_one C && _); [done|].
    by rewrite (later_truthy C D) by (done || apply exec_head_truthy).
  - intros first rest h l h' H.
    by apply chain_return_valid, andb_true_iff in H as [? _].
Qed.

Lemma order_enforced_witness :
  (method Class "x"
     (exec [(Attr, "href"); (PseudoClass, "hover")]
        (CssSelectorClass.constructor "element" "a" Undefined Undefined Undefined))).1
  = Throw OrderError
  ∧ follows_order [(Element, "a"); (Id, "b"); (Class, "c")] = true.
Proof.
  split.
  - exact (proj1 order_enforced
             (CssSelectorClass.constructor "element" "a" Undefined Undefined Undefined)
             Class Attr "href" "x" [(PseudoClass, "hover")] eq_refl
             ltac:(vm_compute; lia)).
  - exact (proj2 order_enforced (Element, "a") [(Id, "b"); (Class, "c")] [] 0 _
             eq_refl).
Defined.

(** C3 as stated names [OrderError] for every such call; an [id] call after
    a pseudo-element on an instance that already has an id raises
    [UniquenessError] instead. *)
Lemma id_after_pseudo_element_uniqueness_error :
  ∃ h', chain (Id, "a") [(PseudoElement, "after"); (Id, "b")] []
        = Some (Throw UniquenessError, h')
  ∧ rank Id < rank PseudoElement
  ∧ UniquenessError ≠ OrderError.
Proof.
  eexists. split; [vm_compute; reflexivity|]. split; [cbn; lia|discriminate].
Qed.

(** ** [element] and [id] after a later category *)

(** C4, as amended.  [element(v)] raises [OrderError] whenever one of id,
    class, attribute, pseudo-class, pseudo-element already has an entry and
    the element category has none; when the element category has an entry
    too, the uniqueness check runs first and [UniquenessError] is raised. *)
Theorem element_order_error (value : string) (o : CssSelectorClass) :
  well_formed o = true →
  truthy (main o !! "id") || truthy (main o !! "className")
  || truthy (main o !! "attr") || truthy (main o !! "pseudoClass")
  || truthy (main o !! "pseudoElement") = true →
  (CssSelectorClass.element value o).1 =
  if truthy (main o !! "element") then Throw UniquenessError
  else Throw OrderError.
Proof.
  intros Hwf Hl.
  change (CssSelectorClass.element value o) with (method Element value o).
  rewrite method_completion by done. cbn [at_most_one andb key].
  destruct (truthy (main o !! "element")); [done|].
  cbn. by rewrite orb_false_r, !orb_assoc, Hl.
Qed.

Lemma element_order_error_witness :
  (CssSelectorClass.element "div"
     (CssSelectorClass.constructor "id" "id" Undefined Undefined Undefined)).1
  = Throw OrderError.
Proof.
  exact (element_order_error "div"
           (CssSelectorClass.constructor "id" "id" Undefined Undefined Undefined)
           eq_refl eq_refl).
Defined.

(** C4 as stated fails where the element category already has an entry:
    [element('a').id('b').element('c')] raises [UniquenessError]. *)
Lemma element_after_id_uniqueness_error :
  ∃ o h',
    chain (Element, "a") [(Id, "b")] [] = Some (Return 0, [o])
    ∧ truthy (main o !! "id") = true
    ∧ fluent (CssSelectorClass.element "c") 0 [o]
      = Some (Throw UniquenessError, h')
    ∧ UniquenessError ≠ OrderError.
Proof.
  eexists _, _. split; [vm_compute; reflexivity|].
  split; [vm_compute; reflexivity|].
  split; [vm_compute; reflexivity|discriminate].
Qed.

(** C7, as amended.  [id(v)] raises [OrderError] whenever one of class,
    attribute, pseudo-class, pseudo-element already has an entry and the id
    category has none, as in [class('x').id('y')]; when the id category has
    an entry too, [UniquenessError] is raised. *)
Theorem id_order_error (value : string) (o : CssSelectorClass) :
  well_formed o = true →
  truthy (main o !! "className") || truthy (main o !! "attr")
  || truthy (main o !! "pseudoClass")
  || truthy (main o !! "pseudoElement") = true →
  (CssSelectorClass.id value o).1 =
  if truthy (main o !! "id") then Throw UniquenessError
  else Throw OrderError.
Proof.
  intros Hwf Hl.
  change (CssSelectorClass.id value o) with (method Id value o).
  rewrite method_completion by done. cbn [at_most_one andb key].
  destruct (truthy (main o !! "id")); [done|].
  cbn. by rewrite orb_false_r, !orb_assoc, Hl.
Qed.

Lemma id_order_error_witness :
  (CssSelectorClass.id "y"
     (CssSelectorClass.constructor "className" "x" Undefined Undefined Undefined)).1
  = Throw OrderError.
Proof.
  exact (id_order_error "y"
           (CssSelectorClass.constructor "className" "x" Undefined Undefined Undefined)
           eq_refl eq_refl).
Defined.

(** C7 as stated fails where the id category already has an entry:
    [id('a').class('b').id('c')] raises [UniquenessError]. *)
Lemma id_after_class_uniqueness_error :
  ∃ o h',
    chain (Id, "a") [(Class, "b")] [] = Some (Return 0, [o])
    ∧ truthy (main o !! "className") = true
    ∧ fluent (CssSelectorClass.id "c") 0 [o]
      = Some (Throw UniquenessError, h')
    ∧ UniquenessError ≠ OrderError.
Proof.
  eexists _, _. split; [vm_compute; reflexivity|].
  split; [vm_compute; reflexivity|].
  split; [vm_compute; reflexivity|discriminate].
Qed.

(** The chain of the specification's example. *)
Example class_then_id_order_error :
  ∃ h', chain (Class, "x") [(Id, "y")] [] = Some (Throw OrderError, h').
Proof. eexists. vm_compute. reflexivity. Qed.

(** ** Uniqueness *)

Lemma exec_elem_truthy rest : ∀ o x,
  x ∈ rest → truthy (main (exec rest o) !! key x.1) = true.
Proof.
  induction rest as [|y rest IH]; intros o x Hx.
  - by apply not_elem_of_nil in Hx.
  - apply elem_of_cons in Hx as [->|Hx]; [|by apply IH].
    destruct y as [D v]. apply exec_head_truthy.
Qed.

Lemma fragments_repeat c vs : fragments c (pair c <$> vs) = vs.
Proof.
  induction vs as [|v vs IH]; [done|]. rewrite fmap_cons.
  change ((c, v) :: (pair c <$> vs)) with ([(c, v)] ++ (pair c <$> vs)).
  by rewrite fragments_app, fragments_one_eq, IH.
Qed.

Lemma valid_sequence_repeat c vs :
  at_most_one c = false → valid_sequence (pair c <$> vs) = true.
Proof.
  intros Hc. apply andb_true_iff. split.
  - induction vs as [|v vs IH]; [done|]. cbn. apply andb_true_iff.
    split; [|done]. apply forallb_forall. intros y Hy%list_elem_of_In.
    apply list_elem_of_fmap in Hy as (w & -> & _). by apply Nat.leb_le.
  - apply within_limits_iff. intros d Hd.
    replace (fragments d (pair c <$> vs)) with (@nil string); [cbn; lia|].
    symmetry. apply fragments_nil_iff.
    intros x (w & -> & _)%list_elem_of_fmap. cbn. congruence.
Qed.

(** C6.  A call that adds a second fragment to the element, id or
    pseudo-element category raises [UniquenessError], on every instance and
    in particular at the end of every chain that already called the
    category; class, attr and pseudoClass never raise it, and a chain of
    any number of calls of one of them completes with all its fragments. *)
Theorem uniqueness_enforced :
  (∀ (c : category) (v : string) (o : CssSelectorClass),
     well_formed o = true → at_most_one c = true →
     truthy (main o !! key c) = true →
     (method c v o).1 = Throw UniquenessError)
  ∧ (∀ (first : call) (rest : list call) (c : category) (v : string),
       at_most_one c = true → c ∈ (first :: rest).*1 →
       (method c v
          (exec rest (CssSelectorClass.constructor (key first.1) first.2
                        Undefined Undefined Undefined))).1
       = Throw UniquenessError)
  ∧ (∀ (c : category) (v : string) (o : CssSelectorClass),
       well_formed o = true → at_most_one c = false →
       (method c v o).1 ≠ Throw UniquenessError)
  ∧ (∀ (c : category) (v : string) (vs : list string) (h : heap),
       at_most_one c = false →
       ∃ o, chain (c, v) (pair c <$> vs) h
            = Some (Return (length h), h ++ [o])
            ∧ main o !! key c = Some (v :: vs)).
Proof.
  repeat split.
  - intros c v o Hwf Hc Ht. by rewrite method_completion, Hc, Ht.
  - intros first rest c v Hc Hin.
    rewrite method_completion, Hc
      by apply well_formed_exec, well_formed_constructor.
    replace (truthy _) with true; [done|]. symmetry.
    apply list_elem_of_fmap in Hin as (x & -> & [->|Hx]%elem_of_cons).
    + apply exec_truthy. cbn. by rewrite lookup_insert_eq.
    + by apply exec_elem_truthy.
  - intros c v o Hwf Hc. rewrite method_completion, Hc by done. cbn.
    destruct (existsb _ _); [|done].
    intros H. apply messages_distinct. by injection H.
  - intros c v vs h Hc.
    destruct (chain_valid (c, v) (pair c <$> vs) h) as [Hch Hm].
    { by apply (valid_sequence_repeat c (v :: vs)). }
    eexists. split; [exact Hch|]. rewrite (Hm c).
    change ((c, v) :: (pair c <$> vs)) with (pair c <$> (v :: vs)).
    by rewrite fragments_repeat.
Qed.

Lemma uniqueness_enforced_witness :
  (method Element "div"
     (CssSelectorClass.constructor "element" "table" Undefined Undefined Undefined)).1
  = Throw UniquenessError
  ∧ (method PseudoElement "before"
       (exec [(Class, "x"); (PseudoElement, "after")]
          (CssSelectorClass.constructor "id" "id1" Undefined Undefined Undefined))).1
    = Throw UniquenessError
  ∧ (method Class "b"
       (CssSelectorClass.constructor "className" "a" Undefined Undefined Undefined)).1
    ≠ Throw UniquenessError
  ∧ ∃ o, chain (Attr, "a") [(Attr, "b"); (Attr, "c")] []
         = Some (Return 0, [o])
         ∧ main o !! "attr" = Some ["a"; "b"; "c"].
Proof.
  destruct uniqueness_enforced as (H1 & H2 & H3 & H4).
  split; [|split; [|split]].
  - exact (H1 Element "div"
             (CssSelectorClass.constructor "element" "table"
                Undefined Undefined Undefined)
             eq_refl eq_refl eq_refl).
  - refine (H2 (Id, "id1") [(Class, "x"); (PseudoElement, "after")]
              PseudoElement "before" eq_refl _).
    cbn. repeat constructor.
  - exact (H3 Class "b"
             (CssSelectorClass.constructor "className" "a"
                Undefined Undefined Undefined)
             eq_refl eq_refl).
  - exact (H4 Attr "a" ["b"; "c"] [] eq_refl).
Defined.

(** The chain of the specification's example: [element('a')] twice. *)
Example element_twice_uniqueness_error :
  ∃ h', chain (Element, "a") [(Element, "a")] []
        = Some (Throw UniquenessError, h').
Proof. eexists. vm_compute. reflexivity. Qed.

(** ** The state an exception leaves behind *)

Lemma in_categories c : In c categories.
Proof. destruct c; cbn; tauto. Qed.

(** C8.  When a category call raises [UniquenessError] or [OrderError], the
    fragment is already in the instance: the receiver is left holding it,
    with two or more fragments in a category limited to one, or with the
    fragment added to a category that precedes one already present. *)
Theorem error_after_append (l : loc) (o : CssSelectorClass) (h : heap)
    (c : category) (v : string) (msg : string) (h' : heap) :
  h !! l = Some o → well_formed o = true →
  fluent (method c v) l h = Some (Throw msg, h') →
  ∃ o', h' !! l = Some o'
    ∧ main o' !! key c = Some (default [] (main o !! key c) ++ [v])
    ∧ ((msg = UniquenessError ∧ violates_uniqueness o' = true)
       ∨ (msg = OrderError
          ∧ ∃ d, rank c < rank d
                 ∧ truthy (main o !! key d) = true
                 ∧ main o' !! key d = main o !! key d)).
Proof.
  intros Ho Hwf. rewrite (fluent_eq _ l h o Ho), method_unfold. cbn [fst snd].
  apply well_formed_iff in Hwf as (Hu & Hord & _).
  intros Hthrow. exists (appended c v o).
  assert (h' = <[l := appended c v o]> h) as ->
    by (repeat case_match; congruence).
  split; [apply list_lookup_insert_eq; by eapply lookup_lt_Some|].
  split; [apply appended_lookup|].
  destruct (at_most_one c && _) eqn:Hc.
  - left. split; [congruence|].
    apply andb_true_iff in Hc as [Hc Hlen%Nat.leb_le].
    apply existsb_exists. exists c. split; [apply in_categories|].
    rewrite Hc, appended_lookup. apply Nat.leb_le.
    cbn. rewrite length_app. cbn. lia.
  - destruct (existsb _ _) eqn:Hl; [|done]. right. split; [congruence|].
    apply existsb_exists in Hl as (d & Hd%in_later & Ht).
    exists d. repeat split; [done..|].
    apply appended_lookup_ne. intros Hk%key_inj. subst. lia.
Qed.

Lemma error_after_append_witness :
  ∃ o',
    [appended Element "div"
       (CssSelectorClass.constructor "element" "table" Undefined Undefined Undefined)]
      !! 0 = Some o'
    ∧ main o' !! "element" = Some ["table"; "div"]
    ∧ ((UniquenessError = UniquenessError ∧ violates_uniqueness o' = true)
       ∨ (UniquenessError = OrderError
          ∧ ∃ d, rank Element < rank d
                 ∧ truthy (main (CssSelectorClass.constructor "element" "table"
                                   Undefined Undefined Undefined) !! key d) = true
                 ∧ main o' !! key d
                   = main (CssSelectorClass.constructor "element" "table"
                             Undefined Undefined Undefined) !! key d)).
Proof.
  exact (error_after_append 0
           (CssSelectorClass.constructor "element" "table" Undefined Undefined Undefined)
           [CssSelectorClass.constructor "element" "table" Undefined Undefined Undefined]
           Element "div" UniquenessError
           [appended Element "div"
              (CssSelectorClass.constructor "element" "table"
                 Undefined Undefined Undefined)]
           eq_refl eq_refl eq_refl).
Defined.

(** The two chains the methods' tests of the errors start from. *)
Example table_then_div_state :
  ∃ o', fluent (CssSelectorClass.element "div") 0
          [CssSelectorClass.constructor "element" "table" Undefined Undefined Undefined]
        = Some (Throw UniquenessError, [o'])
        ∧ main o' !! "element" = Some ["table"; "div"].
Proof. eexists. split; vm_compute; reflexivity. Qed.

Example id_then_div_state :
  ∃ o', fluent (CssSelectorClass.element "div") 0
          [CssSelectorClass.constructor "id" "id" Undefined Undefined Undefined]
        = Some (Throw OrderError, [o'])
        ∧ main o' !! "element" = Some ["div"]
        ∧ main o' !! "id" = Some ["id"].
Proof. eexists. repeat split; vm_compute; reflexivity. Qed.

(** ** Instances do not share state *)

Lemma invoke_frame {A} (m : CssSelectorClass → completion A * CssSelectorClass)
    l (h : heap) r h' :
  invoke m l h = Some (r, h') →
  length h' = length h ∧ ∀ l', l' ≠ l → h' !! l' = h !! l'.
Proof.
  unfold invoke. destruct (h !! l) as [o|]; [|done].
  destruct (m o) as [r0 o']. intros [= <- <-].
  split; [apply length_insert|]. intros l' Hl'. by apply list_lookup_insert_ne.
Qed.

Lemma stringified_frame a (h : heap) r h1 :
  stringified a h = Some (r, h1) →
  length h1 = length h ∧ ∀ l', Obj l' ≠ a → h1 !! l' = h !! l'.
Proof.
  destruct a as [l|s]; cbn.
  - intros [Hlen H]%invoke_frame. split; [done|].
    intros l' Hl'. apply H. congruence.
  - by intros [= <- <-].
Qed.

Lemma uses_combine a1 comb a2 l :
  uses (Combine a1 comb a2) l = false → Obj l ≠ a1 ∧ Obj l ≠ a2.
Proof.
  cbn. intros [H1 H2]%orb_false_iff. split; intros <-.
  - by rewrite Nat.eqb_refl in H1.
  - by rewrite Nat.eqb_refl in H2.
Qed.

Lemma perform1_frame p (h : heap) r h' :
  perform1 p h = Some (r, h') →
  length h ≤ length h'
  ∧ ∀ l, l < length h → uses p l = false → h' !! l = h !! l.
Proof.
  destruct p as [x|a1 comb a2|l0 x|l0]; cbn [perform1].
  - unfold mbind, M_bind. rewrite facade_eq. intros [= <- <-].
    rewrite length_app. split; [lia|]. intros l Hl _. by rewrite lookup_app_l.
  - change (cssSelectorBuilder.combine a1 comb a2) with
      (cssSelector1 ← stringified a1; cssSelector2 ← stringified a2;
       new (CssSelectorClass.constructor "_" "_"
              (Str cssSelector1) (Str comb) (Str cssSelector2))).
    unfold mbind, M_bind.
    destruct (stringified a1 h) as [[r1 h1]|] eqn:E1; [|done].
    apply stringified_frame in E1 as [Hl1 Hf1].
    destruct r1 as [s1|m1].
    2:{ intros [= <- <-]. split; [lia|]. intros l _ [Hu _]%uses_combine. by apply Hf1. }
    destruct (stringified a2 h1) as [[r2 h2]|] eqn:E2; [|done].
    apply stringified_frame in E2 as [Hl2 Hf2].
    destruct r2 as [s2|m2].
    2:{ intros [= <- <-]. split; [lia|]. intros l _ [Hu1 Hu2]%uses_combine.
        rewrite Hf2, Hf1; done. }
    unfold new. intros [= <- <-]. rewrite length_app. split; [lia|].
    intros l Hl [Hu1 Hu2]%uses_combine.
    rewrite lookup_app_l by lia. rewrite Hf2, Hf1; done.
  - unfold fluent, mbind, M_bind.
    destruct (invoke _ l0 h) as [[r0 h0]|] eqn:E; [|done].
    apply invoke_frame in E as [Hlen Hf].
    destruct r0; intros [= <- <-]; (split; [lia|]); cbn [uses];
      intros l _ Hu%Nat.eqb_neq; apply Hf; congruence.
  - unfold mbind, M_bind.
    destruct (stringify l0 h) as [[r0 h0]|] eqn:E; [|done].
    apply invoke_frame in E as [Hlen Hf].
    destruct r0; intros [= <- <-]; (split; [lia|]); cbn [uses];
      intros l _ Hu%Nat.eqb_neq; apply Hf; congruence.
Qed.

Lemma perform1_total p (h : heap) :
  scoped p (length h) = true →
  ∃ r h', perform1 p h = Some (r, h') ∧ length h' = created p (length h).
Proof.
  destruct p as [x|a1 comb a2|l0 x|l0]; cbn [perform1 scoped created].
  - intros _. unfold mbind, M_bind. rewrite facade_eq.
    eexists _, _. split; [done|]. rewrite length_app. cbn. lia.
  - intros [Ha1 Ha2]%andb_true_iff.
    destruct (combine_total a1 comb a2 h Ha1 Ha2)
      as (s1 & h1 & s2 & h2 & _ & _ & Hl & Hc).
    unfold mbind, M_bind. rewrite Hc. eexists _, _. split; [done|].
    rewrite length_app. cbn. lia.
  - intros Hl%Nat.ltb_lt. destruct (lookup_lt_is_Some_2 h l0 Hl) as [o Ho].
    unfold mbind, M_bind. rewrite (fluent_eq _ l0 h o Ho).
    destruct (method x.1 x.2 o).1; eexists _, _; (split; [done|]);
      apply length_insert.
  - intros Hl%Nat.ltb_lt. destruct (lookup_lt_is_Some_2 h l0 Hl) as [o Ho].
    unfold mbind, M_bind. rewrite (stringify_at l0 h o Ho).
    eexists _, _. split; [done|]. apply length_insert.
Qed.

Lemma perform_frame ps : ∀ (h : heap) l o,
  h !! l = Some o → well_scoped ps (length h) = true →
  forallb (λ p, negb (uses p l)) ps = true →
  ∃ h', perform ps h = Some h' ∧ h' !! l = Some o.
Proof.
  induction ps as [|p ps IH]; intros h l o Ho Hs Hu; cbn in *.
  - by exists h.
  - apply andb_true_iff in Hs as [Hp Hs]. apply andb_true_iff in Hu as [Hpu Hu].
    apply negb_true_iff in Hpu.
    destruct (perform1_total p h Hp) as (r & h1 & Hp1 & Hlen).
    destruct (perform1_frame p h r h1 Hp1) as [_ Hf].
    rewrite Hp1. apply IH; [|by rewrite Hlen|done].
    rewrite Hf; [done| |done]. by eapply lookup_lt_Some.
Qed.

(** Every instance a client can reach is well formed. *)
Lemma invoke_well_formed {A}
    (m : CssSelectorClass → completion A * CssSelectorClass) l (h : heap) r h' :
  (∀ o, well_formed o = true → well_formed (m o).2 = true) →
  Forall (λ o, well_formed o = true) h →
  invoke m l h = Some (r, h') →
  Forall (λ o, well_formed o = true) h'.
Proof.
  intros Hm Hh. unfold invoke. destruct (h !! l) as [o|] eqn:Ho; [|done].
  pose proof (Hm o (Forall_lookup_1 _ _ _ _ Hh Ho)) as Ho'.
  destruct (m o) as [r0 o']. intros [= <- <-]. by apply Forall_insert.
Qed.

Lemma stringify_well_formed l (h : heap) r h' :
  Forall (λ o, well_formed o = true) h →
  stringify l h = Some (r, h') →
  Forall (λ o, well_formed o = true) h'.
Proof.
  intros Hh. apply invoke_well_formed; [|done]. intros o Ho.
  pose proof (stringify_state o) as Hs.
  destruct (CssSelectorClass.stringify o) as [s o']. cbn in *. subst o'.
  by apply well_formed_cleared.
Qed.

Lemma stringified_well_formed a (h : heap) r h' :
  Forall (λ o, well_formed o = true) h →
  stringified a h = Some (r, h') →
  Forall (λ o, well_formed o = true) h'.
Proof.
  destruct a as [l|s]; cbn.
  - apply stringify_well_formed.
  - by intros Hh [= <- <-].
Qed.

Lemma perform1_well_formed p (h : heap) r h' :
  Forall (λ o, well_formed o = true) h →
  perform1 p h = Some (r, h') →
  Forall (λ o, well_formed o = true) h'.
Proof.
  intros Hh. destruct p as [x|a1 comb a2|l0 x|l0]; cbn [perform1].
  - unfold mbind, M_bind. rewrite facade_eq. intros [= <- <-].
    apply Forall_app. split; [done|].
    apply Forall_singleton, well_formed_constructor.
  - change (cssSelectorBuilder.combine a1 comb a2) with
      (cssSelector1 ← stringified a1; cssSelector2 ← stringified a2;
       new (CssSelectorClass.constructor "_" "_"
              (Str cssSelector1) (Str comb) (Str cssSelector2))).
    unfold mbind, M_bind.
    destruct (stringified a1 h) as [[r1 h1]|] eqn:E1; [|done].
    apply stringified_well_formed in E1; [|done].
    destruct r1 as [s1|m1]; [|by intros [= <- <-]].
    destruct (stringified a2 h1) as [[r2 h2]|] eqn:E2; [|done].
    apply stringified_well_formed in E2; [|done].
    destruct r2 as [s2|m2]; [|by intros [= <- <-]].
    unfold new. intros [= <- <-]. apply Forall_app. split; [done|].
    apply Forall_singleton, well_formed_constructor.
  - unfold fluent, mbind, M_bind.
    destruct (invoke _ l0 h) as [[r0 h0]|] eqn:E; [|done].
    apply invoke_well_formed in E; [|intros o Ho|done].
    + by destruct r0; intros [= <- <-].
    + rewrite method_state. by apply well_formed_appended.
  - unfold mbind, M_bind.
    destruct (stringify l0 h) as [[r0 h0]|] eqn:E; [|done].
    apply stringify_well_formed in E; [|done].
    by destruct r0; intros [= <- <-].
Qed.

Lemma perform_well_formed ps : ∀ (h h' : heap),
  Forall (λ o, well_formed o = true) h →
  perform ps h = Some h' →
  Forall (λ o, well_formed o = true) h'.
Proof.
  induction ps as [|p ps IH]; intros h h' Hh; cbn.
  - by intros [= <-].
  - destruct (perform1 p h) as [[r h1]|] eqn:E; [|done].
    apply IH. by eapply perform1_well_formed.
Qed.

(** C9, as amended.  Each facade method returns a new instance and changes
    no instance that exists, except that [combine] stringifies, and thereby
    clears, the instances passed to it; whatever a client does with other
    instances, an instance that is neither the receiver of a call nor an
    argument of [combine] keeps its state and the result of its
    [stringify()]. *)
Theorem facade_fresh_and_frame :
  (∀ (c : category) (v : string) (h : heap),
     facade c v h
     = Some (Return (length h),
             h ++ [CssSelectorClass.constructor (key c) v
                     Undefined Undefined Undefined]))
  ∧ (∀ (a1 : selector) (comb : string) (a2 : selector) (h : heap),
       allocated h a1 = true → allocated h a2 = true →
       ∃ h', cssSelectorBuilder.combine a1 comb a2 h
             = Some (Return (length h), h')
             ∧ length h' = S (length h)
             ∧ ∀ l, l < length h → uses (Combine a1 comb a2) l = false →
                    h' !! l = h !! l)
  ∧ (∀ (ps : list operation) (h : heap) (l : loc) (o : CssSelectorClass),
       h !! l = Some o → well_scoped ps (length h) = true →
       forallb (λ p, negb (uses p l)) ps = true →
       ∃ h', perform ps h = Some h' ∧ h' !! l = Some o
             ∧ ∃ s h1 h1', stringify l h = Some (Return s, h1)
                           ∧ stringify l h' = Some (Return s, h1')).
Proof.
  split; [exact facade_eq|]. split.
  - intros a1 comb a2 h Ha1 Ha2.
    destruct (combine_total a1 comb a2 h Ha1 Ha2)
      as (s1 & h1 & s2 & h2 & _ & _ & Hl & Hc).
    eexists. split; [exact Hc|]. split; [rewrite length_app; cbn; lia|].
    intros l Hlt Hu.
    assert (perform1 (Combine a1 comb a2) h
            = Some (Return (), h2 ++ [CssSelectorClass.constructor "_" "_"
                                        (Str s1) (Str comb) (Str s2)])) as Hp
      by (cbn [perform1]; unfold mbind, M_bind; by rewrite Hc).
    by apply (perform1_frame _ _ _ _ Hp).
  - intros ps h l o Ho Hs Hu.
    destruct (perform_frame ps h l o Ho Hs Hu) as (h' & Hp & Ho').
    exists h'. repeat split; [done..|].
    eexists _, _, _. split; by apply stringify_at.
Qed.

Lemma facade_fresh_and_frame_witness :
  (∃ h', cssSelectorBuilder.combine (Obj 0) "+" (Raw "z")
           [CssSelectorClass.constructor "element" "a" Undefined Undefined Undefined;
            CssSelectorClass.constructor "id" "b" Undefined Undefined Undefined]
         = Some (Return 2, h')
         ∧ length h' = 3
         ∧ ∀ l, l < 2 → uses (Combine (Obj 0) "+" (Raw "z")) l = false →
                h' !! l
                = [CssSelectorClass.constructor "element" "a" Undefined Undefined Undefined;
                   CssSelectorClass.constructor "id" "b" Undefined Undefined Undefined]
                    !! l)
  ∧ (∃ h', perform [Create (Id, "b"); CallOn 1 (Class, "x"); CallOn 1 (Id, "c");
                    StringifyOn 1; Combine (Obj 1) ">" (Raw "z"); StringifyOn 2]
             [CssSelectorClass.constructor "element" "a" Undefined Undefined Undefined]
           = Some h'
           ∧ h' !! 0
             = Some (CssSelectorClass.constructor "element" "a"
                       Undefined Undefined Undefined)
           ∧ ∃ s h1 h1',
               stringify 0
                 [CssSelectorClass.constructor "element" "a" Undefined Undefined Undefined]
               = Some (Return s, h1)
               ∧ stringify 0 h' = Some (Return s, h1')).
Proof.
  split.
  - exact (proj1 (proj2 facade_fresh_and_frame) (Obj 0) "+" (Raw "z")
             [CssSelectorClass.constructor "element" "a" Undefined Undefined Undefined;
              CssSelectorClass.constructor "id" "b" Undefined Undefined Undefined]
             eq_refl eq_refl).
  - exact (proj2 (proj2 facade_fresh_and_frame)
             [Create (Id, "b"); CallOn 1 (Class, "x"); CallOn 1 (Id, "c");
              StringifyOn 1; Combine (Obj 1) ">" (Raw "z"); StringifyOn 2]
             [CssSelectorClass.constructor "element" "a" Undefined Undefined Undefined]
             0
             (CssSelectorClass.constructor "element" "a" Undefined Undefined Undefined)
             eq_refl eq_refl eq_refl).
Defined.

(** C9 as stated fails for [combine]: starting the chain
    [combine(a, '+', 'b')] clears the instance [a] of another chain, whose
    [stringify()] then returns the empty string instead of ['a']. *)
Lemma combine_clears_argument :
  ∃ h1 h2 h3 h4,
    cssSelectorBuilder.element "a" [] = Some (Return 0, h1)
    ∧ stringify 0 h1 = Some (Return "a", h3)
    ∧ cssSelectorBuilder.combine (Obj 0) "+" (Raw "b") h1
      = Some (Return 1, h2)
    ∧ stringify 0 h2 = Some (Return "", h4)
    ∧ h2 !! 0 ≠ h1 !! 0.
Proof.
  eexists _, _, _, _. split; [vm_compute; reflexivity|].
  split; [vm_compute; reflexivity|]. split; [vm_compute; reflexivity|].
  split; [vm_compute; reflexivity|]. vm_compute. discriminate.
Qed.

(** ** The examples of the source's documentation *)

Example doc_id_class_class :
  ∃ h', (this ← cssSelectorBuilder.id "main";
         this ← fluent (CssSelectorClass.class "container") this;
         this ← fluent (CssSelectorClass.class "editable") this;
         stringify this) []
        = Some (Return "#main.container.editable", h').
Proof. eexists. vm_compute. reflexivity. Qed.

Example doc_element_attr_pseudo_class :
  ∃ h', (this ← cssSelectorBuilder.element "a";
         this ← fluent (CssSelectorClass.attr ("href$=" +:+ dquote +:+ ".png" +:+ dquote)) this;
         this ← fluent (CssSelectorClass.pseudoClass "focus") this;
         stringify this) []
        = Some (Return ("a[href$=" +:+ dquote +:+ ".png" +:+ dquote +:+ "]:focus"), h').
Proof. eexists. vm_compute. reflexivity. Qed.

Example doc_nested_combine :
  ∃ h',
    (a ← chain (Element, "div")
           [(Id, "main"); (Class, "container"); (Class, "draggable")];
     b ← chain (Element, "table") [(Id, "data")];
     c ← chain (Element, "tr") [(PseudoClass, "nth-of-type(even)")];
     d ← chain (Element, "td") [(PseudoClass, "nth-of-type(even)")];
     cd ← cssSelectorBuilder.combine (Obj c) " " (Obj d);
     bcd ← cssSelectorBuilder.combine (Obj b) "~" (Obj cd);
     abcd ← cssSelectorBuilder.combine (Obj a) "+" (Obj bcd);
     stringify abcd) []
    = Some (Return "div#main.container.draggable + table#data ~ tr:nth-of-type(even)   td:nth-of-type(even)",
            h').
Proof. eexists. vm_compute. reflexivity. Qed.

(** [stringify()] resets the order and uniqueness checks along with the
    fragments: a consumed instance accepts any category again. *)
Example consumed_instance_accepts_element :
  ∃ h', (this ← cssSelectorBuilder.id "x";
         _ ← stringify this;
         this ← fluent (CssSelectorClass.element "a") this;
         stringify this) []
        = Some (Return "a", h').
Proof. eexists. vm_compute. reflexivity. Qed.

(** * Further properties of the builder *)

(** ** Which chains complete, and how the others end *)

Lemma exec_models cs : ∀ pre o,
  models pre o → models (pre ++ cs) (exec cs o).
Proof.
  induction cs as [|[c v] cs IH]; intros pre o Hm; cbn [exec fst snd].
  - by rewrite app_nil_r.
  - rewrite cons_middle, app_assoc, method_state.
    by apply IH, models_appended.
Qed.

Lemma run_app_throw pre : ∀ o o1 x msg o2 post,
  run pre o = (Return (), o1) →
  method x.1 x.2 o1 = (Throw msg, o2) →
  run (pre ++ x :: post) o = (Throw msg, o2).
Proof.
  induction pre as [|y pre IH]; intros o o1 x msg o2 post Hrun Hx.
  - cbn in Hrun. injection Hrun as ->. cbn. by rewrite Hx.
  - cbn in Hrun |- *. destruct (method y.1 y.2 o) as [[[]|m] o']; [|done].
    by eapply IH.
Qed.

Lemma models_truthy cs o c :
  models cs o →
  truthy (main o !! key c) = (1 <=? length (fragments c cs)).
Proof. intros Hm. rewrite (Hm c). by destruct (fragments c cs). Qed.

(** X1.  A chain started from the facade completes without an exception
    exactly when its calls follow the mandated order and element, id and
    pseudo-element occur at most once. *)
Theorem chain_completes_iff (first : call) (rest : list call) (h : heap) :
  (∃ l h', chain first rest h = Some (Return l, h'))
  ↔ valid_sequence (first :: rest) = true.
Proof.
  split.
  - intros (l & h' & H). by eapply chain_return_valid.
  - intros Hv. destruct (chain_valid first rest h Hv) as [H _]. by eexists _, _.
Qed.

(** X2.  A chain ends at the first call that breaks the order or a limit:
    the calls after it are not run, the instance is left in the store with
    the fragment of that call, and the error is [UniquenessError] when the
    call repeats element, id or pseudo-element, [OrderError] otherwise. *)
Theorem chain_first_error (first : call) (pre : list call) (x : call)
    (post : list call) (h : heap) :
  valid_sequence (first :: pre) = true →
  valid_sequence (first :: pre ++ [x]) = false →
  chain first (pre ++ x :: post) h
  = Some (Throw (if at_most_one x.1
                    && (1 <=? length (fragments x.1 (first :: pre)))
                 then UniquenessError else OrderError),
          h ++ [appended x.1 x.2
                  (exec pre (CssSelectorClass.constructor (key first.1) first.2
                               Undefined Undefined Undefined))]).
Proof.
  intros Hv Hx. rewrite chain_run.
  set (o0 := CssSelectorClass.constructor (key first.1) first.2
               Undefined Undefined Undefined).
  destruct (run_valid pre [first] o0) as [Hrun Hm];
    [destruct first; apply models_constructor|done|].
  assert (well_formed (exec pre o0) = true) as Hwf
    by apply well_formed_exec, well_formed_constructor.
  pose proof (method_completion x.1 x.2 (exec pre o0) Hwf) as Hc.
  pose proof (method_state x.1 x.2 (exec pre o0)) as Hs.
  rewrite (models_truthy ([first] ++ pre)) in Hc by done.
  assert (∀ msg, (method x.1 x.2 (exec pre o0)).1 = Throw msg →
                 run (pre ++ x :: post) o0
                 = (Throw msg, appended x.1 x.2 (exec pre o0))) as Hthrow.
  { intros msg Hmsg. eapply run_app_throw; [exact Hrun|].
    destruct (method x.1 x.2 (exec pre o0)) as [r o']. cbn in *. congruence. }
  destruct (at_most_one x.1 && _) eqn:Hu.
  - by rewrite (Hthrow _ Hc).
  - destruct (existsb _ _) eqn:Hl; [by rewrite (Hthrow _ Hc)|].
    pose proof (method_return_valid ([first] ++ pre) (exec pre o0) x.1 x.2 Hm Hv Hc)
      as Hvalid.
    destruct x as [c v].
    discriminate (eq_trans (eq_sym Hvalid) Hx).
Qed.

Lemma chain_first_error_witness :
  chain (Class, "x") ([(Class, "y")] ++ (Id, "z") :: [(Attr, "w")]) []
  = Some (Throw OrderError,
          [appended Id "z"
             (exec [(Class, "y")]
                (CssSelectorClass.constructor "className" "x"
                   Undefined Undefined Undefined))]).
Proof.
  exact (chain_first_error (Class, "x") [(Class, "y")] (Id, "z") [(Attr, "w")] []
           eq_refl eq_refl).
Defined.

(** X3.  A category method returns normally exactly when its category is
    not a limited one that already holds a fragment and no later category
    holds one. *)
Theorem method_returns_iff (c : category) (v : string) (o : CssSelectorClass) :
  well_formed o = true →
  (method c v o).1 = Return ()
  ↔ (at_most_one c = true → main o !! key c = None)
    ∧ ∀ d, rank c < rank d → main o !! key d = None.
Proof.
  intros Hwf. rewrite method_completion by done. split.
  - destruct (at_most_one c && _) eqn:Hu; [done|].
    destruct (existsb _ _) eqn:Hl; [done|]. intros _. split.
    + intros Hc. rewrite Hc in Hu. by destruct (main o !! key c).
    + intros d Hd. destruct (main o !! key d) eqn:E; [|done].
      rewrite (later_truthy c d o) in Hl; [done..|by rewrite E].
  - intros [H1 H2].
    replace (at_most_one c && _) with false; cycle 1.
    { destruct (at_most_one c); [|done]. by rewrite H1. }
    destruct (existsb _ _) eqn:Hl; [|done].
    apply existsb_exists in Hl as (d & Hd%in_later & Ht).
    by rewrite (H2 d Hd) in Ht.
Qed.

Lemma method_returns_iff_witness :
  (method PseudoClass "hover"
     (exec [(Class, "x"); (Attr, "y")]
        (CssSelectorClass.constructor "element" "a" Undefined Undefined Undefined))).1
  = Return ().
Proof.
  apply (method_returns_iff PseudoClass "hover"
           (exec [(Class, "x"); (Attr, "y")]
              (CssSelectorClass.constructor "element" "a"
                 Undefined Undefined Undefined))
           eq_refl).
  split; [discriminate|].
  intros d Hd. destruct d; cbn in Hd; try lia. reflexivity.
Defined.

(** X4.  A category call that threw throws again when it is repeated on
    the instance, whatever the fragment: [UniquenessError] for element, id
    and pseudo-element (also after an [OrderError]), [OrderError] for class,
    attr and pseudoClass. *)
Theorem error_is_sticky (c : category) (v w msg : string)
    (o : CssSelectorClass) :
  well_formed o = true →
  (method c v o).1 = Throw msg →
  (method c w (method c v o).2).1
  = Throw (if at_most_one c then UniquenessError else OrderError).
Proof.
  intros Hwf Hthrow. rewrite method_state.
  rewrite method_completion by by apply well_formed_appended.
  rewrite appended_lookup. cbn [truthy]. rewrite andb_true_r.
  destruct (at_most_one c) eqn:Hc; [reflexivity|].
  rewrite method_completion in Hthrow by exact Hwf.
  rewrite Hc in Hthrow. cbn [andb] in Hthrow.
  destruct (existsb (λ d, truthy (main o !! key d)) (later c)) eqn:Hl; [|done].
  apply existsb_exists in Hl as (d & Hd & Ht).
  replace (existsb _ _) with true; [done|]. symmetry.
  apply existsb_exists. exists d. split; [done|]. by apply appended_truthy.
Qed.

Lemma error_is_sticky_witness :
  (method Element "b"
     (method Element "a"
        (CssSelectorClass.constructor "id" "x" Undefined Undefined Undefined)).2).1
  = Throw UniquenessError.
Proof.
  exact (error_is_sticky Element "a" "b" OrderError
           (CssSelectorClass.constructor "id" "x" Undefined Undefined Undefined)
           eq_refl eq_refl).
Defined.

(** ** Stringification after arbitrary calls *)

Lemma perform_calls cs : ∀ l (h : heap) o,
  h !! l = Some o →
  perform (CallOn l <$> cs) h = Some (<[l := exec cs o]> h).
Proof.
  induction cs as [|x cs IH]; intros l h o Ho.
  - cbn. by rewrite list_insert_id.
  - rewrite fmap_cons. cbn [perform perform1 exec]. unfold mbind, M_bind.
    rewrite (fluent_eq _ l h o Ho).
    assert (<[l := (method x.1 x.2 o).2]> h !! l = Some (method x.1 x.2 o).2)
      as Ho' by (apply list_lookup_insert_eq; by eapply lookup_lt_Some).
    destruct (method x.1 x.2 o).1; cbn;
      by rewrite (IH l _ _ Ho'), list_insert_insert_eq.
Qed.

(** X5.  Whatever category calls are made on a new instance, in any order
    and with every exception caught, [stringify()] groups the fragments by
    category in the fixed order: it returns the concatenation rule applied
    to all the calls, those that threw included. *)
Theorem stringify_any_sequence (first : call) (rest : list call) (h : heap) :
  ∃ h1 h2,
    perform (Create first :: (CallOn (length h) <$> rest)) h = Some h1
    ∧ stringify (length h) h1
      = Some (Return (spec_stringify (first :: rest)), h2).
Proof.
  set (o0 := CssSelectorClass.constructor (key first.1) first.2
               Undefined Undefined Undefined).
  assert ((h ++ [o0]) !! length h = Some o0) as Ho
    by by apply list_lookup_middle.
  eexists _, _. split.
  - cbn [perform perform1]. unfold mbind, M_bind. rewrite facade_eq. cbn.
    apply (perform_calls rest _ _ _ Ho).
  - rewrite (stringify_at (length h) _ (exec rest o0)); cycle 1.
    { apply list_lookup_insert_eq. by eapply lookup_lt_Some. }
    rewrite (stringify_models ([first] ++ rest)); [done| |].
    + apply exec_models. destruct first. apply models_constructor.
    + by destruct (exec_fields rest o0) as (_ & -> & _).
Qed.

(** ** The selector in call order *)

Lemma join_snoc sep xs v :
  xs ≠ [] → join sep (xs ++ [v]) = join sep xs +:+ sep +:+ v.
Proof.
  induction xs as [|a [|b xs] IH]; intros Hne; [done|done|].
  change (join sep ((a :: b :: xs) ++ [v]))
    with (a +:+ sep +:+ join sep ((b :: xs) ++ [v])).
  change (join sep (a :: b :: xs)) with (a +:+ sep +:+ join sep (b :: xs)).
  rewrite IH by done. by rewrite !append_assoc.
Qed.

Lemma contribution_snoc pre fs v :
  contribution pre pre "" (fs ++ [v])
  = contribution pre pre "" fs +:+ pre +:+ v.
Proof.
  destruct fs as [|a fs].
  { cbn [app contribution join String.concat]. by rewrite append_nil_r. }
  change (contribution pre pre "" ((a :: fs) ++ [v]))
    with (pre +:+ join pre ((a :: fs) ++ [v]) +:+ "").
  change (contribution pre pre "" (a :: fs))
    with (pre +:+ join pre (a :: fs) +:+ "").
  rewrite join_snoc by done. by rewrite !append_nil_r, !append_assoc.
Qed.

Lemma tokens_snoc cs x : tokens (cs ++ [x]) = tokens cs +:+ token x.1 x.2.
Proof.
  induction cs as [|y cs IH].
  - cbn. by rewrite append_nil_r.
  - change (tokens ((y :: cs) ++ [x]))
      with (token y.1 y.2 +:+ tokens (cs ++ [x])).
    change (tokens (y :: cs)) with (token y.1 y.2 +:+ tokens cs).
    by rewrite IH, append_assoc.
Qed.

Lemma spec_stringify_snoc cs c v :
  (∀ d, rank c < rank d → fragments d cs = []) →
  (at_most_one c = true ∨ c = Attr → fragments c cs = []) →
  spec_stringify (cs ++ [(c, v)]) = spec_stringify cs +:+ token c v.
Proof.
  intros Hlater Hone. unfold spec_stringify. rewrite !fragments_app.
  destruct c;
    rewrite fragments_one_eq, !fragments_one_ne, ?app_nil_r by done;
    rewrite ?(Hlater Id), ?(Hlater Class), ?(Hlater Attr),
      ?(Hlater PseudoClass), ?(Hlater PseudoElement) by (cbn; lia);
    try (rewrite Hone by first [left; reflexivity | right; reflexivity]);
    rewrite ?contribution_snoc;
    cbn [contribution app token join String.concat];
    rewrite ?append_nil_r, ?append_assoc; reflexivity.
Qed.

Lemma spec_stringify_tokens cs :
  valid_sequence cs = true →
  length (fragments Attr cs) ≤ 1 →
  spec_stringify cs = tokens cs.
Proof.
  induction cs as [|[c v] cs IH] using rev_ind; intros Hv Ha; [done|].
  rewrite tokens_snoc. cbn [fst snd].
  rewrite fragments_app, length_app in Ha.
  pose proof Hv as [Hord Hlim]%andb_true_iff.
  apply follows_order_app in Hord as (_ & _ & Hord).
  rewrite within_limits_iff in Hlim.
  rewrite spec_stringify_snoc, IH;
    [done|by eapply valid_sequence_app_l|lia| |].
  - intros d Hd. apply fragments_nil_iff. intros x Hx Hxd.
    specialize (Hord x (c, v) Hx). rewrite Hxd in Hord. cbn in Hord.
    assert (rank d ≤ rank c) by (apply Hord; left). lia.
  - intros [Hc| ->].
    + specialize (Hlim c Hc).
      rewrite fragments_app, fragments_one_eq, length_app in Hlim.
      cbn in Hlim. destruct (fragments c cs); [done|cbn in Hlim; lia].
    + rewrite fragments_one_eq in Ha. cbn in Ha.
      destruct (fragments Attr cs); [done|cbn in Ha; lia].
Qed.

Lemma chain_stringify first rest (h : heap) :
  valid_sequence (first :: rest) = true →
  ∃ h', (this ← chain first rest; stringify this) h
        = Some (Return (spec_stringify (first :: rest)), h').
Proof.
  intros Hv. destruct (chain_valid first rest h Hv) as [Hc Hm].
  unfold mbind, M_bind. rewrite Hc.
  rewrite (stringify_eq (length h) _ _ (list_lookup_middle h [] _ _ eq_refl)).
  rewrite (stringify_models (first :: rest)); [by eexists|done|].
  by destruct (exec_fields rest
    (CssSelectorClass.constructor (key first.1) first.2 Undefined Undefined Undefined))
    as (_ & -> & _).
Qed.

(** X6.  For a chain that completes and calls [attr] at most once,
    [stringify()] is the selector as it was written: the tokens of the
    calls ([v], [#v], [.v], [[v]], [:v], [::v]) in call order. *)
Theorem stringify_in_call_order (first : call) (rest : list call) (h : heap) :
  valid_sequence (first :: rest) = true →
  length (fragments Attr (first :: rest)) ≤ 1 →
  ∃ h', (this ← chain first rest; stringify this) h
        = Some (Return (tokens (first :: rest)), h').
Proof.
  intros Hv Ha. destruct (chain_stringify first rest h Hv) as [h' H].
  exists h'. by rewrite <- spec_stringify_tokens.
Qed.

Lemma stringify_in_call_order_witness :
  ∃ h', (this ← chain (Element, "a")
                   [(Class, "x"); (Class, "y"); (Attr, "href"); (PseudoClass, "focus")];
         stringify this) []
        = Some (Return "a.x.y[href]:focus", h').
Proof.
  exact (stringify_in_call_order (Element, "a")
           [(Class, "x"); (Class, "y"); (Attr, "href"); (PseudoClass, "focus")] []
           eq_refl ltac:(vm_compute; lia)).
Defined.

(** Two [attr] calls share one pair of brackets. *)
Example attr_twice_one_bracket :
  ∃ h', (this ← chain (Attr, "a") [(Attr, "b")]; stringify this) []
        = Some (Return "[ab]", h')
  ∧ tokens [(Attr, "a"); (Attr, "b")] = "[a][b]".
Proof. eexists. split; vm_compute; reflexivity. Qed.

(** ** More on [combine] *)

(** X7.  Category calls on a compound selector never show in its string:
    after [combine] with a non-empty combinator, whatever category calls the
    client makes on the returned instance, [stringify()] still returns the
    two children around the combinator. *)
Theorem compound_ignores_fragments (a1 : selector) (comb : string)
    (a2 : selector) (cs : list call) (h : heap) :
  allocated h a1 = true → allocated h a2 = true → comb ≠ "" →
  ∃ s1 h1 s2 h2 h3 h4,
    stringified a1 h = Some (Return s1, h1)
    ∧ stringified a2 h1 = Some (Return s2, h2)
    ∧ perform (Combine a1 comb a2 :: (CallOn (length h) <$> cs)) h = Some h3
    ∧ stringify (length h) h3
      = Some (Return (s1 +:+ " " +:+ comb +:+ " " +:+ s2), h4).
Proof.
  intros Ha1 Ha2 Hc.
  destruct (combine_total a1 comb a2 h Ha1 Ha2)
    as (s1 & h1 & s2 & h2 & H1 & H2 & Hl & Hcomb).
  set (o := CssSelectorClass.constructor "_" "_" (Str s1) (Str comb) (Str s2)) in *.
  assert ((h2 ++ [o]) !! length h = Some o) as Ho
    by (rewrite <- Hl; by apply list_lookup_middle).
  exists s1, h1, s2, h2. eexists _, _. split; [done|]. split; [done|]. split.
  - cbn [perform perform1]. unfold mbind, M_bind. rewrite Hcomb. cbn.
    apply (perform_calls cs _ _ _ Ho).
  - rewrite (stringify_at (length h) _ (exec cs o)); cycle 1.
    { apply list_lookup_insert_eq. by eapply lookup_lt_Some. }
    destruct (exec_fields cs o) as (E1 & E2 & E3 & _).
    rewrite stringify_compound, E1, E2, E3; [done|].
    rewrite E2. by apply ToBoolean_Str.
Qed.

Lemma compound_ignores_fragments_witness :
  ∃ h3 h4,
    perform (Combine (Raw "a") "+" (Raw "b")
             :: (CallOn 0 <$> [(Class, "x"); (Element, "p")])) []
    = Some h3
    ∧ stringify 0 h3 = Some (Return "a + b", h4).
Proof.
  destruct (compound_ignores_fragments (Raw "a") "+" (Raw "b")
              [(Class, "x"); (Element, "p")] [] eq_refl eq_refl
              ltac:(discriminate))
    as (s1 & h1 & s2 & h2 & h3 & h4 & H1 & H2 & H3 & H4).
  exists h3, h4. split; [exact H3|].
  injection H1 as <- <-. injection H2 as <- <-. exact H4.
Defined.

(** X8.  [combine] stringifies its first argument before its second, and
    the first call clears the instance: a simple selector passed as both
    arguments gives its string on the left and nothing on the right. *)
Theorem combine_same_instance (l : loc) (o : CssSelectorClass)
    (comb : string) (h : heap) :
  h !! l = Some o → ToBoolean (combinator o) = false → comb ≠ "" →
  ∃ h', (this ← cssSelectorBuilder.combine (Obj l) comb (Obj l);
         stringify this) h
        = Some (Return ((CssSelectorClass.stringify o).1
                        +:+ " " +:+ comb +:+ " "), h').
Proof.
  intros Ho Hsimple Hc.
  assert (<[l := set_main o ∅]> h !! l = Some (set_main o ∅)) as Ho1
    by (apply list_lookup_insert_eq; by eapply lookup_lt_Some).
  pose proof (combine_eq (Obj l) comb (Obj l) h _ _ _ _
                (stringify_at l h o Ho) (stringify_at l _ _ Ho1)) as Hcomb.
  eexists. unfold mbind, M_bind. rewrite Hcomb.
  rewrite (stringify_at _ _ _ (list_lookup_middle _ [] _ _ eq_refl)).
  rewrite stringify_compound by by apply ToBoolean_Str.
  cbn [selector1 combinator selector2 CssSelectorClass.constructor ToString].
  by rewrite stringify_cleared.
Qed.

Lemma combine_same_instance_witness :
  ∃ h', (this ← cssSelectorBuilder.combine (Obj 0) "~" (Obj 0);
         stringify this)
          [CssSelectorClass.constructor "element" "p" Undefined Undefined Undefined]
        = Some (Return "p ~ ", h').
Proof.
  exact (combine_same_instance 0
           (CssSelectorClass.constructor "element" "p" Undefined Undefined Undefined)
           "~"
           [CssSelectorClass.constructor "element" "p" Undefined Undefined Undefined]
           eq_refl eq_refl ltac:(discriminate)).
Defined.

Lemma combine_raw s1 comb s2 (h : heap) :
  cssSelectorBuilder.combine (Raw s1) comb (Raw s2) h
  = Some (Return (length h),
          h ++ [CssSelectorClass.constructor "_" "_"
                  (Str s1) (Str comb) (Str s2)]).
Proof. exact (combine_eq (Raw s1) comb (Raw s2) h s1 h s2 h eq_refl eq_refl). Qed.

(** X9.  Nesting [combine] to the left or to the right gives the same
    string: [combine(combine(s1, c1, s2), c2, s3)] and
    [combine(s1, c1, combine(s2, c2, s3))] both stringify to
    [s1 c1 s2 c2 s3] with single spaces around the combinators. *)
Theorem combine_nesting (s1 c1 s2 c2 s3 : string) (h : heap) :
  c1 ≠ "" → c2 ≠ "" →
  ∃ hl hr,
    (x ← cssSelectorBuilder.combine (Raw s1) c1 (Raw s2);
     y ← cssSelectorBuilder.combine (Obj x) c2 (Raw s3);
     stringify y) h
    = Some (Return (s1 +:+ " " +:+ c1 +:+ " " +:+ s2
                    +:+ " " +:+ c2 +:+ " " +:+ s3), hl)
    ∧ (y ← cssSelectorBuilder.combine (Raw s2) c2 (Raw s3);
       x ← cssSelectorBuilder.combine (Raw s1) c1 (Obj y);
       stringify x) h
      = Some (Return (s1 +:+ " " +:+ c1 +:+ " " +:+ s2
                      +:+ " " +:+ c2 +:+ " " +:+ s3), hr).
Proof.
  intros Hc1 Hc2.
  set (o12 := CssSelectorClass.constructor "_" "_" (Str s1) (Str c1) (Str s2)).
  set (o23 := CssSelectorClass.constructor "_" "_" (Str s2) (Str c2) (Str s3)).
  assert ((h ++ [o12]) !! length h = Some o12) as H12
    by by apply list_lookup_middle.
  assert ((h ++ [o23]) !! length h = Some o23) as H23
    by by apply list_lookup_middle.
  assert ((CssSelectorClass.stringify o12).1 = s1 +:+ " " +:+ c1 +:+ " " +:+ s2)
    as E12 by (rewrite stringify_compound; [done|by apply ToBoolean_Str]).
  assert ((CssSelectorClass.stringify o23).1 = s2 +:+ " " +:+ c2 +:+ " " +:+ s3)
    as E23 by (rewrite stringify_compound; [done|by apply ToBoolean_Str]).
  eexists _, _. split.
  - unfold mbind at 1, M_bind at 1. rewrite combine_raw. fold o12.
    unfold mbind, M_bind.
    rewrite (combine_eq (Obj (length h)) c2 (Raw s3) _ _ _ _ _
               (stringify_at _ _ _ H12) eq_refl).
    rewrite (stringify_at _ _ _ (list_lookup_middle _ [] _ _ eq_refl)).
    rewrite stringify_compound by by apply ToBoolean_Str.
    cbn [selector1 combinator selector2 CssSelectorClass.constructor ToString].
    by rewrite E12, !append_assoc.
  - unfold mbind at 1, M_bind at 1. rewrite combine_raw. fold o23.
    unfold mbind, M_bind.
    rewrite (combine_eq (Raw s1) c1 (Obj (length h)) _ _ _ _ _
               eq_refl (stringify_at _ _ _ H23)).
    rewrite (stringify_at _ _ _ (list_lookup_middle _ [] _ _ eq_refl)).
    rewrite stringify_compound by by apply ToBoolean_Str.
    cbn [selector1 combinator selector2 CssSelectorClass.constructor ToString].
    by rewrite E23.
Qed.

Lemma combine_nesting_witness :
  ∃ hl hr,
    (x ← cssSelectorBuilder.combine (Raw "a") "+" (Raw "b");
     y ← cssSelectorBuilder.combine (Obj x) ">" (Raw "c");
     stringify y) []
    = Some (Return "a + b > c", hl)
    ∧ (y ← cssSelectorBuilder.combine (Raw "b") ">" (Raw "c");
       x ← cssSelectorBuilder.combine (Raw "a") "+" (Obj y);
       stringify x) []
      = Some (Return "a + b > c", hr).
Proof.
  exact (combine_nesting "a" "+" "b" ">" "c" []
           ltac:(discriminate) ltac:(discriminate)).
Defined.

(** X10.  With the empty string as combinator [combine] drops both
    children: the instance it returns behaves as a simple selector without
    fragments, and a valid chain of calls on it stringifies to the
    concatenation rule for those calls alone. *)
Theorem combine_empty_combinator_is_simple (a1 a2 : selector)
    (cs : list call) (h : heap) :
  allocated h a1 = true → allocated h a2 = true →
  valid_sequence cs = true →
  ∃ h', (this ← cssSelectorBuilder.combine a1 "" a2;
         this ← calls cs this;
         stringify this) h
        = Some (Return (spec_stringify cs), h').
Proof.
  intros Ha1 Ha2 Hv.
  destruct (combine_total a1 "" a2 h Ha1 Ha2)
    as (s1 & h1 & s2 & h2 & _ & _ & Hl & Hcomb).
  set (o := CssSelectorClass.constructor "_" "_" (Str s1) (Str "") (Str s2)) in *.
  assert ((h2 ++ [o]) !! length h = Some o) as Ho
    by (rewrite <- Hl; by apply list_lookup_middle).
  assert (models [] o) as Hm0 by (intros c; by destruct c).
  destruct (run_valid cs [] o Hm0 Hv) as [Hrun Hm].
  eexists. unfold mbind at 1, M_bind at 1. rewrite Hcomb.
  unfold mbind, M_bind. rewrite (calls_run cs _ _ _ Ho), Hrun. cbn [fst snd].
  rewrite (stringify_at (length h) _ (exec cs o)); cycle 1.
  { apply list_lookup_insert_eq. by eapply lookup_lt_Some. }
  rewrite (stringify_models cs); [done|done|].
  by destruct (exec_fields cs o) as (_ & -> & _).
Qed.

Lemma combine_empty_combinator_is_simple_witness :
  ∃ h', (this ← cssSelectorBuilder.combine (Raw "a") "" (Raw "b");
         this ← calls [(Id, "x"); (Class, "y")] this;
         stringify this) []
        = Some (Return "#x.y", h').
Proof.
  exact (combine_empty_combinator_is_simple (Raw "a") (Raw "b")
           [(Id, "x"); (Class, "y")] [] eq_refl eq_refl eq_refl).
Defined.

(** ** The store invariant *)

(** X11.  Whatever a client does through the facade and the methods, every
    instance in the store keeps the two messages the constructor gave it and
    never holds an empty array of fragments. *)
Theorem store_well_formed (ps : list operation) (h h' : heap) :
  Forall (λ o, well_formed o = true) h →
  perform ps h = Some h' →
  Forall (λ o, well_formed o = true) h'.
Proof. apply perform_well_formed. Qed.

Lemma store_well_formed_witness :
  ∃ h',
    perform [Create (Class, "x"); CallOn 0 (Id, "a"); CallOn 0 (Element, "p");
             Combine (Obj 0) "+" (Raw "b")] []
    = Some h'
    ∧ Forall (λ o, well_formed o = true) h'.
Proof.
  eexists. split; [vm_compute; reflexivity|].
  apply (store_well_formed
           [Create (Class, "x"); CallOn 0 (Id, "a"); CallOn 0 (Element, "p");
            Combine (Obj 0) "+" (Raw "b")]
           [] _ (Forall_nil_2 _)).
  vm_compute. reflexivity.
Defined.

(** ** Compound selectors are immutable *)

Lemma invoke_fields {A}
    (m : CssSelectorClass → completion A * CssSelectorClass)
    l0 (h : heap) r h' l o :
  (∀ o, selector1 (m o).2 = selector1 o
        ∧ combinator (m o).2 = combinator o
        ∧ selector2 (m o).2 = selector2 o) →
  invoke m l0 h = Some (r, h') →
  h !! l = Some o →
  ∃ o', h' !! l = Some o'
        ∧ selector1 o' = selector1 o
        ∧ combinator o' = combinator o
        ∧ selector2 o' = selector2 o.
Proof.
  intros Hm Hinv Ho. unfold invoke in Hinv.
  destruct (h !! l0) as [o0|] eqn:Ho0; [|done].
  specialize (Hm o0). destruct (m o0) as [r0 o0'].
  injection Hinv as <- <-. destruct (decide (l0 = l)) as [->|Hne].
  - exists o0'. split; [apply list_lookup_insert_eq; by eapply lookup_lt_Some|].
    cbn in Hm. congruence.
  - exists o. by rewrite list_lookup_insert_ne.
Qed.

Lemma stringify_fields l0 (h : heap) r h' l o :
  stringify l0 h = Some (r, h') →
  h !! l = Some o →
  ∃ o', h' !! l = Some o'
        ∧ selector1 o' = selector1 o
        ∧ combinator o' = combinator o
        ∧ selector2 o' = selector2 o.
Proof.
  apply invoke_fields. intros o0. pose proof (stringify_state o0) as Hs.
  destruct (CssSelectorClass.stringify o0) as [s o0']. cbn in *. by subst.
Qed.

Lemma stringified_fields a (h : heap) r h' l o :
  stringified a h = Some (r, h') →
  h !! l = Some o →
  ∃ o', h' !! l = Some o'
        ∧ selector1 o' = selector1 o
        ∧ combinator o' = combinator o
        ∧ selector2 o' = selector2 o.
Proof.
  destruct a as [l0|s]; cbn.
  - apply stringify_fields.
  - intros [= <- <-] Ho. by exists o.
Qed.

Lemma perform1_fields p (h : heap) r h' l o :
  perform1 p h = Some (r, h') →
  h !! l = Some o →
  ∃ o', h' !! l = Some o'
        ∧ selector1 o' = selector1 o
        ∧ combinator o' = combinator o
        ∧ selector2 o' = selector2 o.
Proof.
  intros Hp Ho. destruct p as [x|a1 comb a2|l0 x|l0]; cbn [perform1] in Hp.
  - unfold mbind, M_bind in Hp. rewrite facade_eq in Hp.
    injection Hp as <- <-. exists o. by rewrite (lookup_app_l_Some _ _ _ _ Ho).
  - change (cssSelectorBuilder.combine a1 comb a2) with
      (cssSelector1 ← stringified a1; cssSelector2 ← stringified a2;
       new (CssSelectorClass.constructor "_" "_"
              (Str cssSelector1) (Str comb) (Str cssSelector2))) in Hp.
    unfold mbind, M_bind in Hp.
    destruct (stringified a1 h) as [[r1 h1]|] eqn:E1; [|done].
    destruct (stringified_fields _ _ _ _ _ _ E1 Ho) as (o1 & Ho1 & F1 & F2 & F3).
    destruct r1 as [s1|m1].
    2:{ injection Hp as <- <-. by exists o1. }
    destruct (stringified a2 h1) as [[r2 h2]|] eqn:E2; [|done].
    destruct (stringified_fields _ _ _ _ _ _ E2 Ho1) as (o2 & Ho2 & G1 & G2 & G3).
    destruct r2 as [s2|m2].
    2:{ injection Hp as <- <-. exists o2. repeat split; congruence. }
    unfold new in Hp. injection Hp as <- <-. exists o2.
    rewrite (lookup_app_l_Some _ _ _ _ Ho2). repeat split; congruence.
  - unfold fluent, mbind, M_bind in Hp.
    destruct (invoke _ l0 h) as [[r0 h0]|] eqn:E; [|done].
    assert (h' = h0) as ->
      by (destruct r0; unfold mret, M_ret in Hp; congruence).
    eapply invoke_fields; [|exact E|exact Ho].
    intros o0. by rewrite method_state.
  - unfold mbind, M_bind in Hp.
    destruct (stringify l0 h) as [[r0 h0]|] eqn:E; [|done].
    assert (h' = h0) as ->
      by (destruct r0; unfold mret, M_ret in Hp; congruence).
    by eapply stringify_fields.
Qed.

Lemma perform_fields ps : ∀ (h h' : heap) l o,
  perform ps h = Some h' →
  h !! l = Some o →
  ∃ o', h' !! l = Some o'
        ∧ selector1 o' = selector1 o
        ∧ combinator o' = combinator o
        ∧ selector2 o' = selector2 o.
Proof.
  induction ps as [|p ps IH]; intros h h' l o Hp Ho; cbn in Hp.
  - injection Hp as <-. by exists o.
  - destruct (perform1 p h) as [[r h1]|] eqn:E; [|done].
    destruct (perform1_fields _ _ _ _ _ _ E Ho) as (o1 & Ho1 & F1 & F2 & F3).
    destruct (IH _ _ _ _ Hp Ho1) as (o' & Ho' & G1 & G2 & G3).
    exists o'. repeat split; congruence.
Qed.

(** X12.  The string of a compound selector cannot be changed: whatever a
    client does afterwards, on this instance or on others, also passing it
    to [combine] or stringifying it, [stringify()] on an instance with a
    truthy combinator returns the same string as before. *)
Theorem compound_immutable (ps : list operation) (h h' : heap) (l : loc)
    (o : CssSelectorClass) :
  h !! l = Some o → ToBoolean (combinator o) = true →
  perform ps h = Some h' →
  ∃ s h1 h1',
    stringify l h = Some (Return s, h1)
    ∧ stringify l h' = Some (Return s, h1').
Proof.
  intros Ho Hc Hp.
  destruct (perform_fields ps h h' l o Hp Ho) as (o' & Ho' & F1 & F2 & F3).
  eexists _, _, _. split; [by apply stringify_at|].
  rewrite (stringify_at l h' o' Ho'). do 2 f_equal. f_equal.
  rewrite !stringify_compound by congruence. congruence.
Qed.

Lemma compound_immutable_witness :
  ∃ h' s h1 h1',
    perform [CallOn 0 (Class, "x"); StringifyOn 0; Combine (Obj 0) ">" (Obj 0);
             CallOn 0 (Element, "p")]
      [CssSelectorClass.constructor "_" "_" (Str "a") (Str "+") (Str "b")]
    = Some h'
    ∧ stringify 0
        [CssSelectorClass.constructor "_" "_" (Str "a") (Str "+") (Str "b")]
      = Some (Return s, h1)
    ∧ stringify 0 h' = Some (Return s, h1').
Proof.
  eexists. 
  assert (perform [CallOn 0 (Class, "x"); StringifyOn 0; Combine (Obj 0) ">" (Obj 0);
                   CallOn 0 (Element, "p")]
            [CssSelectorClass.constructor "_" "_" (Str "a") (Str "+") (Str "b")]
          = Some _) as Hp by (vm_compute; reflexivity).
  destruct (compound_immutable
              [CallOn 0 (Class, "x"); StringifyOn 0; Combine (Obj 0) ">" (Obj 0);
               CallOn 0 (Element, "p")]
              [CssSelectorClass.constructor "_" "_" (Str "a") (Str "+") (Str "b")]
              _ 0
              (CssSelectorClass.constructor "_" "_" (Str "a") (Str "+") (Str "b"))
              eq_refl eq_refl Hp) as (s & h1 & h1' & H1 & H2).
  exists s, h1, h1'. split; [exact Hp|]. by split.
Defined.

(** ** Fragments are not inspected *)

(** X13.  Whether a category call throws, and what, depends on the
    categories the instance holds and never on the fragment passed: an
    empty string counts as a fragment like any other, and the category
    holds it afterwards. *)
Theorem completion_ignores_fragment (c : category) (v w : string)
    (o : CssSelectorClass) :
  (method c v o).1 = (method c w o).1
  ∧ truthy (main (method c v o).2 !! key c) = true
  ∧ ∃ fs, main (method c v o).2 !! key c = Some (fs ++ [v]).
Proof.
  rewrite !method_unfold. cbn [fst snd]. rewrite appended_lookup.
  repeat split. by eexists.
Qed.
